(** * FlowingCharts drawing utilities: the [svg] and [canvas] modules

    A shallow embedding of the two drawing back ends of the toolkit (module
    [svg], which writes presentation attributes on DOM nodes, and module
    [canvas], which replays path commands on a 2D context), of the part of
    module [dom] they call, and the properties of the drawing contract that
    hold, or fail, on them. *)

From Equations Require Import Equations.
From Stdlib Require Import Ascii.
From stdpp Require Import base strings gmap list pretty.

Local Open Scope string_scope.
Local Open Scope list_scope.

(** ** The [for (var i = 0; i < n; i+=2)] loop

    Both [getCoordsAsString] (svg) and [polyline] (canvas) walk the coordinate
    array with this loop.  [body i acc] is one pass of the loop body at index
    [i] on the loop-carried state [acc]. *)

Equations? for_step2 {A : Type} (i n : nat) (body : nat → A → A) (acc : A) : A
  by wf (n - i) lt :=
  for_step2 i n body acc with decide (i < n) := {
    | left _ => for_step2 (i + 2) n body (body i acc);
    | right _ => acc }.
Proof. lia. Qed.

(** ** JavaScript numbers, values and completions

    Numbers are IEEE doubles in the source.  The drawing code never inspects
    them beyond converting them to text, comparing one with [0] and the
    arithmetic of the ellipse control points, so the development is stated
    over any implementation of that interface. *)

Class Number := {
  num : Type;
  num_to_string : num → string;      (* ToString applied to a number *)
  num_is_zero : num → bool;          (* n === 0 *)
  num_of_Z : Z → num;                (* integer literals *)
  num_add : num → num → num;
  num_sub : num → num → num;
  num_mul : num → num → num;
  num_kappa : num;                   (* the literal 0.5522848 *)
  num_PI : num                       (* Math.PI *)
}.

Inductive value `{Number} : Type :=
  | undefined
  | number (n : num)
  | str (s : string).

Definition ToString `{Number} (v : value) : string :=
  match v with
  | undefined => "undefined"
  | number n => num_to_string n
  | str s => s
  end.

(** [arr[i]]: reading past the end of an array gives [undefined]. *)
Definition index `{Number} (arr : list num) (i : nat) : value :=
  match arr !! i with
  | Some x => number x
  | None => undefined
  end.

(** The style object of a draw call; an absent property reads as [None]. *)
Record Style `{Number} : Type := mkStyle {
  fillColor : option string;
  fillOpacity : option num;
  lineColor : option string;
  lineWidth : option num;
  lineJoin : option string;
  lineCap : option string;
  lineOpacity : option num
}.
Arguments mkStyle {_} _ _ _ _ _ _ _.

Inductive TypeErrorCause : Type :=
  | read_property_of_undefined (property : string)
  | not_a_function (property : string).

Inductive Error : Type :=
  | TypeError (cause : TypeErrorCause).

Inductive Completion (A : Type) : Type :=
  | Normal (a : A)
  | Throw (e : Error).
Arguments Normal {A} a.
Arguments Throw {A} e.

(** Statements run on a mutable store [S]; a thrown error skips the rest of
    the call and keeps every write made before it. *)
Definition M (S A : Type) : Type := S → S * Completion A.

Definition ret {S A : Type} (a : A) : M S A := fun s => (s, Normal a).

Definition bind {S A B : Type} (m : M S A) (k : A → M S B) : M S B :=
  fun s => match m s with
           | (s', Normal a) => k a s'
           | (s', Throw e) => (s', Throw e)
           end.

Definition throw {S A : Type} (e : Error) : M S A := fun s => (s, Throw e).

Definition modify {S : Type} (f : S → S) : M S unit := fun s => (f s, Normal tt).

Declare Scope js_scope.
Delimit Scope js_scope with js.
Notation "x <- c1 ;; c2" := (bind c1 (fun x => c2))
  (at level 100, c1 at next level, c2 at level 200, right associativity) : js_scope.
Notation "c1 ;; c2" := (bind c1 (fun _ => c2))
  (at level 100, c2 at level 200, right associativity) : js_scope.
Local Open Scope js_scope.

(** The store after a call, and how the call completed. *)
Definition store_after {S A : Type} (m : M S A) (s : S) : S := fst (m s).
Definition completion_of {S A : Type} (m : M S A) (s : S) : Completion A := snd (m s).

(** ** The colour module *)

(** Modelled from the spec: module [color] ([colorUtil.toRGBA], the Color
    Resolver) is required by both back ends but is not among the sources.  It
    turns a colour string, and an optional opacity, into a normalised RGBA
    colour string.  [alpha_channel s a] reads: the colour string [s] has alpha
    channel [a]. *)
Class ColorUtil `{Number} := {
  toRGBA : string → option num → string;
  alpha_channel : string → num → Prop
}.

(** Modelled from the spec: the contract of the Color Resolver.  An opacity
    passed explicitly becomes the alpha channel of the result, whatever alpha
    the colour string carried; and the result is an RGBA colour, never the
    keyword [none]. *)
Class ColorContract `{ColorUtil} : Prop := {
  toRGBA_alpha : ∀ (c : string) (a : num), alpha_channel (toRGBA c (Some a)) a;
  toRGBA_not_none : ∀ (c : string) (o : option num), toRGBA c o ≠ "none"
}.

(** ** Module [dom]: the document and the helpers the svg module calls *)

Record Element : Type := mkElement {
  tagName : string;
  attributes : gmap string string;
  childNodes : list nat;
  parentNode : option nat
}.

(** Elements are objects: the document maps each reference to its state. *)
Abbreviation Document := (gmap nat Element).

(** What the capability probes ask of the browser:
    [document.implementation.hasFeature(feature, version)], and whether
    [getContext('2d')] on a newly created canvas element gives a context. *)
Record Browser : Type := mkBrowser {
  hasFeature : string → string → bool;
  canvas_getContext_2d : bool
}.

Module dom.
Section dom.
Context `{Number}.

Definition isSupported (browser : Browser) (feature version : string) : bool :=
  hasFeature browser feature version.

Definition set_attributes (f : gmap string string → gmap string string)
    (e : Element) : Element :=
  mkElement (tagName e) (f (attributes e)) (childNodes e) (parentNode e).

Definition set_childNodes (f : list nat → list nat) (e : Element) : Element :=
  mkElement (tagName e) (attributes e) (f (childNodes e)) (parentNode e).

Definition set_parentNode (p : option nat) (e : Element) : Element :=
  mkElement (tagName e) (attributes e) (childNodes e) p.

(** [element.setAttribute(name, value)]: the value is converted to text. *)
Definition setAttribute (element : nat) (name : string) (v : value)
    : M Document unit :=
  modify (alter (set_attributes <[name := ToString v]>) element).

(** Removes the first occurrence of [c] from a child list. *)
Fixpoint remove_first (c : nat) (l : list nat) : list nat :=
  match l with
  | [] => []
  | x :: l' => if decide (x = c) then l' else x :: remove_first c l'
  end.

(** [element.removeChild(child)], for a child of the element. *)
Definition removeChild (element child : nat) : M Document unit :=
  modify (fun doc : Document =>
    alter (set_parentNode None) child
      (alter (set_childNodes (remove_first child)) element doc)).


Definition firstChild (doc : Document) (element : nat) : option nat :=
  doc !! element ≫= (fun e => head (childNodes e)).

(** [while (element.firstChild) element.removeChild(element.firstChild)]:
    one pass for each child the element has when the loop starts. *)
Fixpoint empty_loop (passes : nat) (element : nat) (doc : Document) : Document :=
  match passes with
  | 0 => doc
  | S passes' =>
      match firstChild doc element with
      | Some c => empty_loop passes' element (fst (removeChild element c doc))
      | None => doc
      end
  end.

Definition empty (element : nat) : M Document unit :=
  modify (fun doc : Document =>
    empty_loop (from_option (fun e => length (childNodes e)) 0 (doc !! element))
               element doc).

(** [for (var property in attributes) ... setAttribute]: the own properties
    of the object literal in the order they were written; iterating over
    [undefined] does nothing. *)
Fixpoint attr_loop (element : nat) (attributes : list (string * value))
    : M Document unit :=
  match attributes with
  | [] => ret tt
  | (property, v) :: rest =>
      setAttribute element property v ;; attr_loop element rest
  end.

Definition attr (element : nat) (attributes : option (list (string * value)))
    : M Document unit :=
  match attributes with
  | Some l => attr_loop element l
  | None => ret tt
  end.



(** [for (i ...) element.removeAttribute(attributes[i])]: each name of the
    array in turn; removing an attribute the element does not have does
    nothing. *)
Fixpoint removeAttr_loop (element : nat) (attributes : list string)
    : M Document unit :=
  match attributes with
  | [] => ret tt
  | name :: rest =>
      modify (alter (set_attributes (delete name)) element) ;;
      removeAttr_loop element rest
  end.

Definition removeAttr (element : nat) (attributes : list string) : M Document unit :=
  removeAttr_loop element attributes.


(** The inline style of each element ([element.style]), property by property;
    a property never set reads as the empty string. *)
Definition style_property (styles : gmap nat (gmap string string)) (element : nat)
    (property : string) : string :=
  default "" (styles !! element ≫= (fun st => st !! property)).

Definition set_style_property (element : nat) (property v : string)
    (styles : gmap nat (gmap string string)) : gmap nat (gmap string string) :=
  <[element := <[property := v]> (default ∅ (styles !! element))]> styles.

(** [element.style.visibility = 'hidden'] *)
Definition hide (element : nat) : M (gmap nat (gmap string string)) unit :=
  modify (set_style_property element "visibility" "hidden").

(** [element.style.visibility = 'visible'] *)
Definition show (element : nat) : M (gmap nat (gmap string string)) unit :=
  modify (set_style_property element "visibility" "visible").

Definition isVisible (styles : gmap nat (gmap string string)) (element : nat) : bool :=
  if decide (style_property styles element "visibility" = "hidden") then false
  else true.

End dom.
End dom.

(** ** Module [util] *)

Module util.
Section util.
Context `{Number}.




End util.
End util.

(** ** Module [svg]: the vector back end *)

Module svg.
Section svg.
Context `{ColorUtil}.


Definition isSupported (browser : Browser) : bool :=
  dom.isSupported browser "http://www.w3.org/TR/SVG11/feature#Shape" "1.0".


(** The body of [clear] is empty in the source. *)
Definition clear (element : nat) : M Document unit := ret tt.

Definition empty (element : nat) : M Document unit := dom.empty element.

Definition getCoordsAsString (arrCoords : list num) : string :=
  let n := length arrCoords in
  for_step2 0 n
    (fun i strPoints =>
       let strPoints := if decide (i ≠ 0) then strPoints +:+ "," else strPoints in
       strPoints +:+
         ((("" +:+ ToString (index arrCoords i)) +:+ " ")
            +:+ ToString (index arrCoords (i + 1))))
    "".

Definition draw (element : nat) (style : option Style) : M Document unit :=
  match style with
  | None => throw (TypeError (read_property_of_undefined "fillColor"))
  | Some style =>
      (* Fill. *)
      let fillColor0 :=
        match fillColor style with
        | Some c => toRGBA c None
        | None => "none"
        end in
      let fillColor1 :=
        match bool_decide (fillColor0 ≠ "none"), fillOpacity style with
        | true, Some o => toRGBA fillColor0 (Some o)
        | _, _ => fillColor0
        end in
      (* Stroke. *)
      let lineWidth1 := from_option id (num_of_Z 1) (lineWidth style) in
      let lineJoin1 := from_option id "round" (lineJoin style) in
      let lineCap1 := from_option id "butt" (lineCap style) in
      let lineColor0 :=
        match lineColor style with
        | Some c => toRGBA c None
        | None => "none"
        end in
      let lineColor1 :=
        match bool_decide (lineColor0 ≠ "none"), lineOpacity style with
        | true, Some o => toRGBA lineColor0 (Some o)
        | _, _ => lineColor0
        end in
      dom.attr element
        (Some [("fill", str fillColor1);
               ("stroke", str lineColor1);
               ("stroke-width", number lineWidth1);
               ("stroke-linejoin", str lineJoin1);
               ("stroke-linecap", str lineCap1)])
  end.

Definition circle (element : nat) (cx cy r : num) (style : option Style)
    : M Document unit :=
  dom.attr element (Some [("cx", number cx); ("cy", number cy); ("r", number r)]) ;;
  draw element style.

Definition ellipse (element : nat) (cx cy rx ry : num) (style : option Style)
    : M Document unit :=
  dom.attr element
    (Some [("cx", number cx); ("cy", number cy); ("rx", number rx); ("ry", number ry)]) ;;
  draw element style.

Definition rect (element : nat) (x y w h : num) (style : option Style)
    : M Document unit :=
  dom.attr element
    (Some [("x", number x); ("y", number y); ("width", number w); ("height", number h)]) ;;
  draw element style.

Definition line (element : nat) (x1 y1 x2 y2 : num) (style : option Style)
    : M Document unit :=
  dom.attr element
    (Some [("x1", number x1); ("y1", number y1); ("x2", number x2); ("y2", number y2)]) ;;
  draw element style.

Definition polyline (element : nat) (arrCoords : list num) (style : option Style)
    : M Document unit :=
  dom.attr element (Some [("points", str (getCoordsAsString arrCoords))]) ;;
  draw element style.

Definition polygon (element : nat) (arrCoords : list num) (style : option Style)
    : M Document unit :=
  dom.attr element (Some [("points", str (getCoordsAsString arrCoords))]) ;;
  draw element style.

(** A call of one of the six shape operations, with its geometry. *)
Inductive Shape : Type :=
  | Circle (cx cy r : num)
  | Ellipse (cx cy rx ry : num)
  | Rect (x y w h : num)
  | Line (x1 y1 x2 y2 : num)
  | Polyline (arrCoords : list num)
  | Polygon (arrCoords : list num).

Definition call (op : Shape) (element : nat) (style : option Style)
    : M Document unit :=
  match op with
  | Circle cx cy r => circle element cx cy r style
  | Ellipse cx cy rx ry => ellipse element cx cy rx ry style
  | Rect x y w h => rect element x y w h style
  | Line x1 y1 x2 y2 => line element x1 y1 x2 y2 style
  | Polyline arrCoords => polyline element arrCoords style
  | Polygon arrCoords => polygon element arrCoords style
  end.

End svg.
End svg.

(** ** Module [canvas]: the raster back end *)

Module canvas.
Section canvas.
Context `{ColorUtil}.

(** What reaches the 2D context, in the order it happens: path commands,
    property writes and paint commands.  A coordinate is a [value] because
    the polyline loop may read past the end of its array. *)
Inductive Command : Type :=
  | beginPath
  | arc (cx cy r startAngle endAngle : num) (anticlockwise : bool)
  | moveTo (x y : value)
  | lineTo (x y : value)
  | bezierCurveTo (cp1x cp1y cp2x cp2y x y : num)
  | rect_ (x y w h : num)
  | closePath
  | set_fillStyle (s : string)
  | fill
  | set_lineWidth (w : num)
  | set_lineJoin (s : string)
  | set_lineCap (s : string)
  | set_strokeStyle (s : string)
  | stroke
  | clearRect (x y w h : num).

Abbreviation Context2D := (list Command).

Definition emit (c : Command) : M Context2D unit := modify (fun ctx => ctx ++ [c]).

Record Canvas : Type := mkCanvas {
  width : num;
  height : num;
  context2d : Context2D
}.

(** [!!dom.createElement('canvas').getContext('2d')] *)
Definition isSupported (browser : Browser) : bool :=
  negb (negb (canvas_getContext_2d browser)).

Definition empty : M Canvas unit :=
  modify (fun canvas =>
    mkCanvas (width canvas) (height canvas)
      (context2d canvas
         ++ [clearRect (num_of_Z 0) (num_of_Z 0) (width canvas) (height canvas)])).

Definition clear : M Canvas unit := empty.

Definition draw (style : option Style) : M Context2D unit :=
  match style with
  | None => throw (TypeError (read_property_of_undefined "fillColor"))
  | Some style =>
      (* Fill. *)
      match fillColor style with
      | Some c =>
          emit (set_fillStyle
                  match fillOpacity style with
                  | Some o => toRGBA c (Some o)
                  | None => toRGBA c None
                  end) ;;
          emit fill
      | None => ret tt
      end ;;
      (* Stroke. *)
      match lineColor style, from_option (fun w => negb (num_is_zero w)) true (lineWidth style) with
      | Some c, true =>
          emit (set_lineWidth (from_option id (num_of_Z 1) (lineWidth style))) ;;
          emit (set_lineJoin (from_option id "round" (lineJoin style))) ;;
          emit (set_lineCap (from_option id "butt" (lineCap style))) ;;
          emit (set_strokeStyle
                  match lineOpacity style with
                  | Some o => toRGBA c (Some o)
                  | None => toRGBA c None
                  end) ;;
          emit stroke
      | _, _ => ret tt
      end
  end.

Definition circle (cx cy r : num) (style : option Style) : M Context2D unit :=
  emit beginPath ;;
  emit (arc cx cy r (num_of_Z 0) (num_mul (num_of_Z 2) num_PI) false) ;;
  draw style.

Definition ellipse (cx cy rx ry : num) (style : option Style) : M Context2D unit :=
  let kappa := num_kappa in
  let x := num_sub cx rx in
  let y := num_sub cy ry in
  let xe := num_add cx rx in
  let ye := num_add cy ry in
  let ox := num_mul rx kappa in
  let oy := num_mul ry kappa in
  emit beginPath ;;
  emit (moveTo (number x) (number cy)) ;;
  emit (bezierCurveTo x (num_sub cy oy) (num_sub cx ox) y cx y) ;;
  emit (bezierCurveTo (num_add cx ox) y xe (num_sub cy oy) xe cy) ;;
  emit (bezierCurveTo xe (num_add cy oy) (num_add cx ox) ye cx ye) ;;
  emit (bezierCurveTo (num_sub cx ox) ye x (num_add cy oy) x cy) ;;
  draw style.

Definition rect (x y w h : num) (style : option Style) : M Context2D unit :=
  emit beginPath ;;
  emit (rect_ x y w h) ;;
  draw style.

Definition line (x1 y1 x2 y2 : num) (style : option Style) : M Context2D unit :=
  emit beginPath ;;
  emit (moveTo (number x1) (number y1)) ;;
  emit (lineTo (number x2) (number y2)) ;;
  draw style.

(** What a parameter of [polyline] is bound to.  The exported operations are
    called with a 2D context and an array; [polygon] calls [polyline] with
    its array in the place of the context and nothing else. *)
Inductive Argument : Type :=
  | the_context
  | an_array (a : list num)
  | not_passed.

Definition polyline_loop (arrCoords : list num) : M Context2D unit :=
  let n := length arrCoords in
  modify (for_step2 0 n
    (fun i ctx =>
       let x := index arrCoords i in
       let y := index arrCoords (i + 1) in
       if decide (i = 0) then ctx ++ [moveTo x y] else ctx ++ [lineTo x y])).

Definition polyline (ctx arrCoords : Argument) (style : option Style)
    : M Context2D unit :=
  match ctx with
  | the_context =>
      emit beginPath ;;
      match arrCoords with
      | an_array a => polyline_loop a
      | the_context => ret tt       (* [n] is undefined: the loop does not run *)
      | not_passed => throw (TypeError (read_property_of_undefined "length"))
      end ;;
      draw style
  | an_array _ => throw (TypeError (not_a_function "beginPath"))
  | not_passed => throw (TypeError (read_property_of_undefined "beginPath"))
  end.

Definition polygon (arrCoords : list num) (style : option Style) : M Context2D unit :=
  polyline (an_array arrCoords) not_passed None ;;
  emit closePath ;;
  draw style.

(** A call of one of the six shape operations, with its geometry. *)
Inductive Shape : Type :=
  | Circle (cx cy r : num)
  | Ellipse (cx cy rx ry : num)
  | Rect (x y w h : num)
  | Line (x1 y1 x2 y2 : num)
  | Polyline (arrCoords : list num)
  | Polygon (arrCoords : list num).

Definition call (op : Shape) (style : option Style) : M Context2D unit :=
  match op with
  | Circle cx cy r => circle cx cy r style
  | Ellipse cx cy rx ry => ellipse cx cy rx ry style
  | Rect x y w h => rect x y w h style
  | Line x1 y1 x2 y2 => line x1 y1 x2 y2 style
  | Polyline arrCoords => polyline the_context (an_array arrCoords) style
  | Polygon arrCoords => polygon arrCoords style
  end.

End canvas.

Abbreviation Context2D := (list Command).

End canvas.

(** ** Back-end selection

    The code that chooses between the two back ends is not among the sources;
    only the two [isSupported] probes are. *)

Module selection.

Inductive Backend : Type := Vector | Raster.

(** Modelled from the spec: the selection is a state machine with the states
    untested and resolved, the latter with the back end found, or none. *)
Inductive State : Type :=
  | untested
  | resolved (backend : option Backend).

(** Modelled from the spec: a draw call through the selection either runs on
    the selected back end or fails with a configuration error. *)
Inductive Outcome (A : Type) : Type :=
  | Drawn (a : A)
  | ConfigurationError (message : string).
Arguments Drawn {A} a.
Arguments ConfigurationError {A} message.

(** Modelled from the spec: the vector back end is probed first, then the
    raster back end; the first that reports support is selected. *)
Definition probe (browser : Browser) : option Backend :=
  if svg.isSupported browser then Some Vector
  else if canvas.isSupported browser then Some Raster
  else None.

(** Modelled from the spec: the first query probes and keeps the result;
    later queries answer from what was kept. *)
Definition query (browser : Browser) (st : State) : State * option Backend :=
  match st with
  | untested => let b := probe browser in (resolved b, b)
  | resolved b => (st, b)
  end.

(** Modelled from the spec: a draw call made when no back end was found fails
    with the configuration error "no supported rendering backend"; [op] is
    the operation as each back end provides it. *)
Definition draw_call {A : Type} (browser : Browser) (op : Backend → A)
    (st : State) : State * Outcome A :=
  match query browser st with
  | (st', Some b) => (st', Drawn (op b))
  | (st', None) => (st', ConfigurationError "no supported rendering backend")
  end.

(** Modelled from the spec: a sequence of draw calls, one after the other. *)
Fixpoint draw_calls {A : Type} (browser : Browser) (ops : list (Backend → A))
    (st : State) : State * list (Outcome A) :=
  match ops with
  | [] => (st, [])
  | op :: ops' =>
      let '(st1, r) := draw_call browser op st in
      let '(st2, rs) := draw_calls browser ops' st1 in
      (st2, r :: rs)
  end.

End selection.

(** ** A runtime to evaluate the model on

    Finite decimals [mantissa / 10 ^ exponent] with exact arithmetic stand in
    for doubles, and a small colour module renders [rgba(r,g,b,a)] strings.
    The theorems below hold for every runtime; this one is used to run the
    model on concrete calls. *)

Module runtime.

Record Decimal : Type := mkDecimal { mantissa : Z; exponent : nat }.

Definition align (a b : Decimal) : Z * Z * nat :=
  let e := exponent a `max` exponent b in
  ((mantissa a * 10 ^ Z.of_nat (e - exponent a))%Z,
   (mantissa b * 10 ^ Z.of_nat (e - exponent b))%Z, e).

Definition add (a b : Decimal) : Decimal :=
  let '(x, y, e) := align a b in mkDecimal (x + y) e.

Definition sub (a b : Decimal) : Decimal :=
  let '(x, y, e) := align a b in mkDecimal (x - y) e.

Definition mul (a b : Decimal) : Decimal :=
  mkDecimal (mantissa a * mantissa b) (exponent a + exponent b).

(** Drops the trailing zeros of the fraction. *)
Fixpoint normalise (m : Z) (e : nat) : Z * nat :=
  match e with
  | 0 => (m, 0)
  | S e' => if (m mod 10 =? 0)%Z then normalise (m / 10) e' else (m, e)
  end.

Fixpoint zeros (n : nat) : string :=
  match n with
  | 0 => ""
  | S n' => "0" +:+ zeros n'
  end.

Definition to_string (d : Decimal) : string :=
  let '(m, e) := normalise (mantissa d) (exponent d) in
  let a := Z.abs m in
  let p := (10 ^ Z.of_nat e)%Z in
  let fraction := pretty (a mod p)%Z in
  (if (m <? 0)%Z then "-" else "") +:+ pretty (a / p)%Z +:+
  (if decide (e = 0) then ""
   else "." +:+ zeros (e - String.length fraction) +:+ fraction).

#[export] Instance decimal_number : Number := {|
  num := Decimal;
  num_to_string := to_string;
  num_is_zero d := (mantissa d =? 0)%Z;
  num_of_Z z := mkDecimal z 0;
  num_add := add;
  num_sub := sub;
  num_mul := mul;
  num_kappa := mkDecimal 5522848 7;
  num_PI := mkDecimal 3141592653589793 15
|}.

(** The text of [s] up to the first [sep], and the text after it. *)
Fixpoint split_at (sep : ascii) (s : string) : string * option string :=
  match s with
  | EmptyString => (EmptyString, None)
  | String c s' =>
      if decide (c = sep) then (EmptyString, Some s')
      else let '(a, b) := split_at sep s' in (String c a, b)
  end.

Definition named (c : string) : string :=
  if decide (c = "red") then "255,0,0"
  else if decide (c = "green") then "0,128,0"
  else if decide (c = "blue") then "0,0,255"
  else if decide (c = "white") then "255,255,255"
  else "0,0,0".

(** The [r,g,b] part and the alpha part of a colour string: those of an
    [rgba(r,g,b,a)] string, else the named colour with alpha [1]. *)
Definition components (c : string) : string * string :=
  match split_at "("%char c with
  | ("rgba", Some rest) =>
      let '(r, rest1) := split_at ","%char rest in
      let '(g, rest2) := split_at ","%char (default "" rest1) in
      let '(b, rest3) := split_at ","%char (default "" rest2) in
      let '(a, _) := split_at ")"%char (default "" rest3) in
      (r +:+ "," +:+ g +:+ "," +:+ b, a)
  | _ => (named c, "1")
  end.

Definition rgba (rgb alpha : string) : string :=
  "rgba(" +:+ rgb +:+ "," +:+ alpha +:+ ")".

#[export] Instance color : ColorUtil := {|
  toRGBA c alpha :=
    let '(rgb, a) := components c in
    rgba rgb (from_option num_to_string a alpha);
  alpha_channel s a := ∃ rgb, s = rgba rgb (num_to_string a)
|}.

End runtime.

(** ** What the properties are stated with *)

(** [element.getAttribute(name)] and the child list of an element. *)
Definition attribute (doc : Document) (element : nat) (name : string) : option string :=
  doc !! element ≫= (fun e => attributes e !! name).

Definition children (doc : Document) (element : nat) : list nat :=
  from_option childNodes [] (doc !! element).

(** Texts separated by commas. *)
Fixpoint join_comma (texts : list string) : string :=
  match texts with
  | [] => ""
  | [t] => t
  | t :: rest => t +:+ "," +:+ join_comma rest
  end.

Section words.
Context `{Number}.

(** The coordinate list [x1, y1, ..., xn, yn] of the points
    [(x1, y1), ..., (xn, yn)]. *)
Definition coords_of (pairs : list (num * num)) : list num :=
  flat_map (fun p => [p.1; p.2]) pairs.

(** The point string ["x1 y1,x2 y2,...,xn yn"]. *)
Definition points_string (pairs : list (num * num)) : string :=
  join_comma (map (fun p => num_to_string p.1 +:+ " " +:+ num_to_string p.2) pairs).

(** The pairs the coordinate loop reads from an array: the last one of an
    array of odd length has no second coordinate. *)
Fixpoint chunks (arr : list num) : list (value * value) :=
  match arr with
  | [] => []
  | [x] => [(number x, undefined)]
  | x :: y :: rest => (number x, number y) :: chunks rest
  end.

Definition point_text (p : value * value) : string :=
  ToString p.1 +:+ " " +:+ ToString p.2.

(** The loop, pair by pair: [i] is the index of the first coordinate. *)
Fixpoint fold_chunks {A : Type} (g : nat → value → value → A → A) (i : nat)
    (cs : list (value * value)) (acc : A) : A :=
  match cs with
  | [] => acc
  | (x, y) :: cs' => fold_chunks g (i + 2) cs' (g i x y acc)
  end.

(** The attribute map after the writes of [dom.attr], in their order. *)
Definition write_all (l : list (string * value)) (m : gmap string string)
    : gmap string string :=
  foldl (fun m kv => <[kv.1 := ToString kv.2]> m) m l.

(** One pass of the loop of [getCoordsAsString], on the two coordinates it
    reads. *)
Definition points_pass (i : nat) (x y : value) (strPoints : string) : string :=
  (if decide (i ≠ 0) then strPoints +:+ "," else strPoints)
    +:+ ((("" +:+ ToString x) +:+ " ") +:+ ToString y).

(** One pass of the loop of the raster [polyline]. *)
Definition path_pass (i : nat) (x y : value) (ctx : canvas.Context2D)
    : canvas.Context2D :=
  if decide (i = 0) then ctx ++ [canvas.moveTo x y] else ctx ++ [canvas.lineTo x y].

(** The attributes a vector shape operation writes: those of its geometry
    and, when a style object is passed, the five style attributes. *)
Definition geometry_names (op : svg.Shape) : list string :=
  match op with
  | svg.Circle _ _ _ => ["cx"; "cy"; "r"]
  | svg.Ellipse _ _ _ _ => ["cx"; "cy"; "rx"; "ry"]
  | svg.Rect _ _ _ _ => ["x"; "y"; "width"; "height"]
  | svg.Line _ _ _ _ => ["x1"; "y1"; "x2"; "y2"]
  | svg.Polyline _ => ["points"]
  | svg.Polygon _ => ["points"]
  end.

Definition style_names : list string :=
  ["fill"; "stroke"; "stroke-width"; "stroke-linejoin"; "stroke-linecap"].

Definition written_names (op : svg.Shape) (style : option Style) : list string :=
  geometry_names op ++ match style with Some _ => style_names | None => [] end.

(** The attribute map after the removals of [dom.removeAttr]. *)
Definition delete_all (names : list string) (m : gmap string string)
    : gmap string string :=
  foldl (fun m name => delete name m) m names.

(** How a shape operation completes: normally with a style object, with the
    TypeError of the first read of [style] without. *)
Definition svg_completion (style : option Style) : Completion unit :=
  match style with
  | Some _ => Normal tt
  | None => Throw (TypeError (read_property_of_undefined "fillColor"))
  end.


(** The commands a call adds to the context. *)
Definition issued {A : Type} (m : M canvas.Context2D A) (ctx : canvas.Context2D)
    : canvas.Context2D :=
  drop (length ctx) (store_after m ctx).

(** The polyline through the points: a move to the first, a line to each of
    the others. *)
Definition path_commands (cs : list (value * value)) : canvas.Context2D :=
  match cs with
  | [] => []
  | (x, y) :: rest =>
      canvas.moveTo x y :: map (fun p => canvas.lineTo p.1 p.2) rest
  end.

(** The path of each raster operation as its documentation has it; the one of
    [polygon] is the polyline of its points, closed. *)
Definition path_of (op : canvas.Shape) : canvas.Context2D :=
  match op with
  | canvas.Circle cx cy r =>
      [canvas.beginPath;
       canvas.arc cx cy r (num_of_Z 0) (num_mul (num_of_Z 2) num_PI) false]
  | canvas.Ellipse cx cy rx ry =>
      let x := num_sub cx rx in
      let y := num_sub cy ry in
      let xe := num_add cx rx in
      let ye := num_add cy ry in
      let ox := num_mul rx num_kappa in
      let oy := num_mul ry num_kappa in
      [canvas.beginPath;
       canvas.moveTo (number x) (number cy);
       canvas.bezierCurveTo x (num_sub cy oy) (num_sub cx ox) y cx y;
       canvas.bezierCurveTo (num_add cx ox) y xe (num_sub cy oy) xe cy;
       canvas.bezierCurveTo xe (num_add cy oy) (num_add cx ox) ye cx ye;
       canvas.bezierCurveTo (num_sub cx ox) ye x (num_add cy oy) x cy]
  | canvas.Rect x y w h => [canvas.beginPath; canvas.rect_ x y w h]
  | canvas.Line x1 y1 x2 y2 =>
      [canvas.beginPath;
       canvas.moveTo (number x1) (number y1);
       canvas.lineTo (number x2) (number y2)]
  | canvas.Polyline arrCoords =>
      canvas.beginPath :: path_commands (chunks arrCoords)
  | canvas.Polygon arrCoords =>
      canvas.beginPath :: path_commands (chunks arrCoords) ++ [canvas.closePath]
  end.


End words.

Section colour_words.
Context `{ColorUtil}.

(** The commands [draw] issues for a style, on any context. *)
Definition paint (style : option Style) : canvas.Context2D :=
  store_after (canvas.draw style) [].

(** A stroke is wanted: there is a line colour and the line width is not [0]
    (an absent line width is not [0]: it stands for [1]). *)
Definition stroke_wanted (st : Style) : bool :=
  bool_decide (is_Some (lineColor st))
  && from_option (fun w => negb (num_is_zero w)) true (lineWidth st).

End colour_words.

(** ** Calls to run the model on *)

Module example.
Import runtime.

Definition n (z : Z) : num := num_of_Z z.

Definition no_style : Style := mkStyle None None None None None None None.

(** [{fillColor:'blue'}] *)
Definition blue : Style := mkStyle (Some "blue") None None None None None None.

(** [{lineColor:'black'}] *)
Definition black_line : Style := mkStyle None None (Some "black") None None None None.

(** [{fillColor:'rgba(255,0,0,1)', fillOpacity:0.5, lineColor:'black',
    lineOpacity:0.25, lineWidth:2}] *)
Definition translucent : Style :=
  mkStyle (Some "rgba(255,0,0,1)") (Some (mkDecimal 5 1))
          (Some "black") (Some (n 2)) None None (Some (mkDecimal 25 2)).

(** [[0,0, 10,0, 10,10, 0,10]] *)
Definition square : list num := [n 0; n 0; n 10; n 0; n 10; n 10; n 0; n 10].


(** A surface with one circle drawn on it. *)
Definition one_circle : Document :=
  <[ 1 := mkElement "circle" {[ "r" := "10" ]} [] (Some 0) ]>
    {[ 0 := mkElement "svg" ∅ [1] None ]}.

(** A browser with neither vector shapes nor a 2D context. *)
Definition bare_browser : Browser := mkBrowser (fun _ _ => false) false.

End example.

(** * Properties *)

(** ** Text *)

Lemma string_app_cons (c : ascii) (s1 s2 : string) :
  String c s1 +:+ s2 = String c (s1 +:+ s2).
Proof. reflexivity. Qed.

Lemma string_app_nil_l (s : string) : "" +:+ s = s.
Proof. reflexivity. Qed.

Lemma string_app_assoc (s1 s2 s3 : string) : (s1 +:+ s2) +:+ s3 = s1 +:+ (s2 +:+ s3).
Proof.
  induction s1 as [|c s1 IH]; [done|].
  by rewrite !string_app_cons, IH.
Qed.

Lemma string_app_nil_r (s : string) : s +:+ "" = s.
Proof.
  induction s as [|c s IH]; [done|].
  by rewrite string_app_cons, IH.
Qed.

(** ** The coordinate loop *)

Lemma for_step2_step {A : Type} (i n : nat) (body : nat → A → A) (acc : A) :
  for_step2 i n body acc =
  if decide (i < n) then for_step2 (i + 2) n body (body i acc) else acc.
Proof. rewrite for_step2_equation_1. by destruct (decide (i < n)). Qed.

Lemma list_pair_ind {A : Type} (P : list A → Prop) :
  P [] → (∀ x, P [x]) → (∀ x y l, P l → P (x :: y :: l)) → ∀ l, P l.
Proof.
  intros Hnil Hone Hstep.
  enough (∀ l, P l ∧ ∀ x, P (x :: l)) as Hboth by (intros l; apply Hboth).
  induction l as [|y l [IH1 IH2]]; split; auto.
Qed.

Section coordinate_loop.
Context `{Number}.

Lemma index_app_r (pre rest : list num) (k : nat) :
  index (pre ++ rest) (length pre + k) = index rest k.
Proof. unfold index. by rewrite lookup_app_r, Nat.add_comm, Nat.add_sub by lia. Qed.

Lemma index_app_0 (pre rest : list num) :
  index (pre ++ rest) (length pre) = index rest 0.
Proof. by rewrite <-(Nat.add_0_r (length pre)), index_app_r. Qed.

(** A loop whose body reads [arr[i]] and [arr[i+1]] handles the array pair by
    pair and stops after the last one. *)
Lemma for_step2_from {A : Type} (g : nat → value → value → A → A)
    (rest pre : list num) (acc : A) :
  for_step2 (length pre) (length (pre ++ rest))
    (fun i a => g i (index (pre ++ rest) i) (index (pre ++ rest) (i + 1)) a) acc
  = fold_chunks g (length pre) (chunks rest) acc.
Proof.
  revert pre acc. induction rest as [|x|x y rest IH] using list_pair_ind;
    intros pre acc; rewrite for_step2_step;
    destruct (decide _) as [Hlt|Hge]; rewrite ?length_app in *; simpl in *;
    try lia.
  - done.
  - rewrite for_step2_step.
    destruct (decide _); [lia|].
    by rewrite index_app_0, index_app_r.
  - rewrite index_app_0, index_app_r. simpl.
    specialize (IH (pre ++ [x; y]) (g (length pre) (number x) (number y) acc)).
    rewrite <-!app_assoc, !length_app in IH. simpl in IH.
    exact IH.
Qed.

Lemma for_step2_chunks {A : Type} (g : nat → value → value → A → A)
    (arr : list num) (acc : A) :
  for_step2 0 (length arr)
    (fun i a => g i (index arr i) (index arr (i + 1)) a) acc
  = fold_chunks g 0 (chunks arr) acc.
Proof. exact (for_step2_from g arr [] acc). Qed.

Lemma chunks_coords_of (pairs : list (num * num)) :
  chunks (coords_of pairs) = map (fun p => (number p.1, number p.2)) pairs.
Proof. induction pairs as [|[x y] pairs IH]; simpl; [done | by rewrite IH]. Qed.

Lemma chunks_coords_of_snoc (pairs : list (num * num)) (x : num) :
  chunks (coords_of pairs ++ [x])
  = map (fun p => (number p.1, number p.2)) pairs ++ [(number x, undefined)].
Proof. induction pairs as [|[a b] pairs IH]; simpl; [done | by rewrite IH]. Qed.

(** Every list of even length lists the coordinates of some points, and
    every list of odd length is such a list followed by one more number. *)
Lemma even_or_odd_coords (arr : list num) :
  (∃ pairs, arr = coords_of pairs) ∨ (∃ pairs x, arr = coords_of pairs ++ [x]).
Proof.
  induction arr as [|x|x y arr IH] using list_pair_ind.
  - left. by exists [].
  - right. by exists [], x.
  - destruct IH as [[pairs ->]|(pairs & z & ->)].
    + left. by exists ((x, y) :: pairs).
    + right. by exists ((x, y) :: pairs), z.
Qed.

Lemma length_coords_of (pairs : list (num * num)) :
  length (coords_of pairs) = 2 * length pairs.
Proof. induction pairs as [|p pairs IH]; simpl; lia. Qed.

Lemma even_length_coords (arr : list num) :
  Nat.Even (length arr) → ∃ pairs, arr = coords_of pairs.
Proof.
  intros [k Hk]. destruct (even_or_odd_coords arr) as [?|(pairs & x & ->)]; [done|].
  rewrite length_app, length_coords_of in Hk. simpl in Hk. lia.
Qed.

Lemma odd_length_coords (arr : list num) :
  Nat.Odd (length arr) → ∃ pairs x, arr = coords_of pairs ++ [x].
Proof.
  intros [k Hk]. destruct (even_or_odd_coords arr) as [[pairs ->]|?]; [|done].
  rewrite length_coords_of in Hk. lia.
Qed.

End coordinate_loop.

(** ** Module [dom] *)

Section dom_properties.
Context `{Number}.

Lemma set_attributes_id (e : Element) : dom.set_attributes (fun m => m) e = e.
Proof. by destruct e. Qed.

Lemma alter_attributes_twice (f g : gmap string string → gmap string string)
    (element : nat) (doc : Document) :
  alter (dom.set_attributes f) element (alter (dom.set_attributes g) element doc)
  = alter (dom.set_attributes (f ∘ g)) element doc.
Proof. rewrite alter_alter_eq. by apply alter_ext. Qed.

(** [dom.attr] never throws, and only rewrites the attribute map of its
    element. *)
Lemma attr_loop_run (element : nat) (l : list (string * value)) (doc : Document) :
  dom.attr_loop element l doc
  = (alter (dom.set_attributes (write_all l)) element doc, Normal tt).
Proof.
  revert doc. induction l as [|[property v] l IH]; intros doc; simpl.
  - unfold ret. f_equal. symmetry. apply alter_id. intros e _.
    apply set_attributes_id.
  - unfold bind, dom.setAttribute, modify. rewrite IH, alter_alter_eq. done.
Qed.

Lemma attr_run (element : nat) (l : list (string * value)) (doc : Document) :
  dom.attr element (Some l) doc
  = (alter (dom.set_attributes (write_all l)) element doc, Normal tt).
Proof. apply attr_loop_run. Qed.

Lemma attribute_alter (f : gmap string string → gmap string string)
    (element : nat) (name : string) (doc : Document) :
  attribute (alter (dom.set_attributes f) element doc) element name
  = doc !! element ≫= (fun e => f (attributes e) !! name).
Proof. unfold attribute. rewrite lookup_alter_eq. by destruct (doc !! element). Qed.

Lemma children_alter_attributes (f : gmap string string → gmap string string)
    (element i : nat) (doc : Document) :
  children (alter (dom.set_attributes f) element doc) i = children doc i.
Proof.
  unfold children. destruct (decide (element = i)) as [->|Hne].
  - rewrite lookup_alter_eq. by destruct (doc !! i).
  - by rewrite lookup_alter_ne.
Qed.

End dom_properties.

(** ** Module [svg]: the point string *)

Section svg_points.
Context `{ColorUtil}.

Lemma fold_chunks_pass (cs : list (value * value)) (i : nat) (acc : string) :
  fold_chunks points_pass i cs acc
  = acc +:+ match cs with
            | [] => ""
            | _ => (if decide (i ≠ 0) then "," else "")
                     +:+ join_comma (map point_text cs)
            end.
Proof.
  revert i acc. induction cs as [|[x y] cs IH]; intros i acc.
  - simpl. by rewrite string_app_nil_r.
  - cbn [fold_chunks]. rewrite IH. unfold points_pass, point_text.
    destruct (decide (i + 2 ≠ 0)) as [_|]; [|lia].
    destruct cs as [|c cs]; destruct (decide (i ≠ 0)); simpl;
      rewrite ?string_app_nil_l, ?string_app_nil_r, ?string_app_assoc; done.
Qed.

(** The string [getCoordsAsString] returns, for every array. *)
Lemma getCoordsAsString_chunks (arrCoords : list num) :
  svg.getCoordsAsString arrCoords = join_comma (map point_text (chunks arrCoords)).
Proof.
  transitivity (fold_chunks points_pass 0 (chunks arrCoords) "").
  - exact (for_step2_chunks points_pass arrCoords "").
  - rewrite fold_chunks_pass. by destruct (chunks arrCoords).
Qed.

Lemma getCoordsAsString_even (pairs : list (num * num)) :
  svg.getCoordsAsString (coords_of pairs) = points_string pairs.
Proof.
  rewrite getCoordsAsString_chunks, chunks_coords_of, map_map. done.
Qed.

Lemma getCoordsAsString_odd (pairs : list (num * num)) (x : num) :
  svg.getCoordsAsString (coords_of pairs ++ [x])
  = join_comma (map (fun p => num_to_string p.1 +:+ " " +:+ num_to_string p.2) pairs
                  ++ [num_to_string x +:+ " undefined"]).
Proof.
  rewrite getCoordsAsString_chunks, chunks_coords_of_snoc, map_app, map_map. done.
Qed.

End svg_points.

(** ** Module [svg]: the shape operations *)

(** Runs the attribute writes of a call on the document. *)
Ltac svg_run :=
  unfold store_after, completion_of, svg.call, svg.circle, svg.ellipse, svg.rect,
    svg.line, svg.polyline, svg.polygon, svg.draw, bind, throw;
  rewrite ?attr_run; cbn [fst snd].

Section svg_shapes.
Context `{ColorUtil}.

(** [draw] with a style object: its five writes, and nothing thrown. *)
Lemma svg_draw_run (element : nat) (st : Style) (doc : Document) :
  ∃ l, svg.draw element (Some st) doc
       = (alter (dom.set_attributes (write_all l)) element doc, Normal tt)
     ∧ map fst l = ["fill"; "stroke"; "stroke-width"; "stroke-linejoin"; "stroke-linecap"].
Proof. svg_run. eexists. split; [reflexivity|]. done. Qed.

(** The writes of a style never touch the geometry attributes. *)
Lemma write_all_other (l : list (string * value)) (name : string)
    (m : gmap string string) :
  name ∉ map fst l → write_all l m !! name = m !! name.
Proof.
  revert m. induction l as [|[k v] l IH]; intros m Hnot; [done|].
  simpl in *. apply not_elem_of_cons in Hnot as [Hne Hnot].
  rewrite IH by done. by apply lookup_insert_ne.
Qed.

(** The points attribute after [polyline], whether or not [draw] then throws. *)
Lemma svg_polyline_points (element : nat) (arrCoords : list num)
    (style : option Style) (doc : Document) :
  is_Some (doc !! element) →
  attribute (store_after (svg.polyline element arrCoords style) doc) element "points"
  = Some (svg.getCoordsAsString arrCoords).
Proof.
  intros [e He]. destruct style as [st|]; svg_run;
    rewrite ?alter_attributes_twice, attribute_alter, He; simpl.
  - by rewrite !lookup_insert_ne, lookup_insert_eq by done.
  - by rewrite lookup_insert_eq.
Qed.

(** [polyline] and [polygon] with a style object complete normally. *)
Lemma svg_polyline_normal (element : nat) (arrCoords : list num) (st : Style)
    (doc : Document) :
  completion_of (svg.polyline element arrCoords (Some st)) doc = Normal tt.
Proof. by svg_run. Qed.



(** Without a style object every shape operation throws at the first read of
    a property of [style]. *)
Lemma svg_call_no_style (op : svg.Shape) (element : nat) (doc : Document) :
  completion_of (svg.call op element None) doc
  = Throw (TypeError (read_property_of_undefined "fillColor")).
Proof. by destruct op; svg_run. Qed.

End svg_shapes.

(** ** Module [svg]: fill and stroke colours *)

Section svg_colours.
Context `{ColorUtil} {contract : ColorContract}.

Lemma svg_draw_fill (element : nat) (st : Style) (doc : Document) (c : string) (a : num) :
  is_Some (doc !! element) → fillColor st = Some c → fillOpacity st = Some a →
  attribute (store_after (svg.draw element (Some st)) doc) element "fill"
  = Some (toRGBA (toRGBA c None) (Some a)).
Proof.
  intros [e He] Hc Ha. svg_run. rewrite attribute_alter, He. simpl.
  rewrite !lookup_insert_ne, lookup_insert_eq by done.
  rewrite Hc, Ha, bool_decide_eq_true_2 by apply toRGBA_not_none. done.
Qed.

Lemma svg_draw_stroke (element : nat) (st : Style) (doc : Document) (c : string) (a : num) :
  is_Some (doc !! element) → lineColor st = Some c → lineOpacity st = Some a →
  attribute (store_after (svg.draw element (Some st)) doc) element "stroke"
  = Some (toRGBA (toRGBA c None) (Some a)).
Proof.
  intros [e He] Hc Ha. svg_run. rewrite attribute_alter, He. simpl.
  rewrite !lookup_insert_ne, lookup_insert_eq by done.
  rewrite Hc, Ha, bool_decide_eq_true_2 by apply toRGBA_not_none. done.
Qed.

End svg_colours.

(** ** Module [svg]: creating and removing nodes *)

Section svg_nodes.
Context `{ColorUtil}.



(** One pass of the loop of [dom.empty] takes the first child out. *)
Lemma removeChild_first (element c : nat) (l : list nat) (e : Element) (doc : Document) :
  doc !! element = Some e → childNodes e = c :: l →
  ∃ e', fst (dom.removeChild element c doc) !! element = Some e'
      ∧ childNodes e' = l ∧ tagName e' = tagName e ∧ attributes e' = attributes e.
Proof.
  intros He Hl. unfold dom.removeChild, modify. cbn [fst].
  destruct (decide (c = element)) as [->|Hne].
  - rewrite !lookup_alter_eq, He. simpl. eexists. split; [done|].
    simpl. rewrite Hl. simpl. by rewrite decide_True.
  - rewrite lookup_alter_ne, lookup_alter_eq, He by done. simpl. eexists.
    split; [done|]. simpl. rewrite Hl. simpl. by rewrite decide_True.
Qed.

Lemma removeChild_dom (element c : nat) (doc : Document) :
  dom (fst (dom.removeChild element c doc)) = dom doc.
Proof. unfold dom.removeChild, modify. cbn [fst]. by rewrite !dom_alter_L. Qed.

Lemma empty_loop_run (l : list nat) (element : nat) (e : Element) (doc : Document) :
  doc !! element = Some e → childNodes e = l →
  ∃ e', dom.empty_loop (length l) element doc !! element = Some e'
      ∧ childNodes e' = [] ∧ tagName e' = tagName e ∧ attributes e' = attributes e
      ∧ dom (dom.empty_loop (length l) element doc) = dom doc.
Proof.
  revert e doc. induction l as [|c l IH]; intros e doc He Hl; simpl.
  - by exists e.
  - unfold dom.firstChild. rewrite He. simpl. rewrite Hl. simpl.
    destruct (removeChild_first element c l e doc He Hl) as (e1 & He1 & Hl1 & Ht1 & Ha1).
    destruct (IH e1 _ He1 Hl1) as (e' & He' & Hl' & Ht' & Ha' & Hd').
    exists e'. split; [exact He'|]. split; [done|].
    split; [congruence|]. split; [congruence|].
    etrans; [exact Hd' | apply removeChild_dom].
Qed.

(** [empty] removes every child of the element and keeps the element, its
    tag and its attributes. *)
Lemma svg_empty_removes_children (element : nat) (e : Element) (doc : Document) :
  doc !! element = Some e →
  completion_of (svg.empty element) doc = Normal tt
  ∧ children (store_after (svg.empty element) doc) element = []
  ∧ (∃ e', store_after (svg.empty element) doc !! element = Some e'
         ∧ tagName e' = tagName e ∧ attributes e' = attributes e)
  ∧ dom (store_after (svg.empty element) doc) = dom doc.
Proof.
  intros He. unfold svg.empty, dom.empty, modify, store_after, completion_of, children.
  cbn [fst snd]. rewrite He. simpl.
  destruct (empty_loop_run (childNodes e) element e doc He eq_refl)
    as (e' & He' & Hl' & Ht' & Ha' & Hd').
  rewrite He'. simpl. repeat split; try done. by exists e'.
Qed.

End svg_nodes.

(** ** Module [canvas] *)

Ltac canvas_run :=
  unfold issued, paint, store_after, completion_of, canvas.call, canvas.circle,
    canvas.ellipse, canvas.rect, canvas.line, canvas.polygon, canvas.polyline,
    canvas.draw, canvas.emit, bind, ret, throw, modify;
  cbn [fst snd].

Section canvas_properties.
Context `{ColorUtil}.

Lemma issued_app {A : Type} (m : M canvas.Context2D A) (ctx new : canvas.Context2D)
    (r : Completion A) :
  m ctx = (ctx ++ new, r) → issued m ctx = new.
Proof. intros Hm. unfold issued, store_after. rewrite Hm. apply drop_app_length. Qed.

(** [draw] does not read the context: it appends the same commands to any. *)
Lemma canvas_draw_run (style : option Style) (ctx : canvas.Context2D) :
  canvas.draw style ctx = (ctx ++ paint style, completion_of (canvas.draw style) []).
Proof.
  destruct style as [[fc fo lc lw lj lcap lo]|]; canvas_run; simpl.
  - destruct fc, lc, (from_option (fun w => negb (num_is_zero w)) true lw);
      simpl; rewrite <-?app_assoc, ?app_nil_r; done.
  - by rewrite app_nil_r.
Qed.

Lemma fold_chunks_lineTo (cs : list (value * value)) (i : nat) (ctx : canvas.Context2D) :
  i ≠ 0 →
  fold_chunks path_pass i cs ctx = ctx ++ map (fun p => canvas.lineTo p.1 p.2) cs.
Proof.
  revert i ctx. induction cs as [|[x y] cs IH]; intros i ctx Hi; simpl.
  - by rewrite app_nil_r.
  - rewrite IH by lia. unfold path_pass. rewrite decide_False by done.
    by rewrite <-app_assoc.
Qed.

Lemma polyline_loop_run (arrCoords : list num) (ctx : canvas.Context2D) :
  canvas.polyline_loop arrCoords ctx = (ctx ++ path_commands (chunks arrCoords), Normal tt).
Proof.
  unfold canvas.polyline_loop, modify. f_equal.
  transitivity (fold_chunks path_pass 0 (chunks arrCoords) ctx).
  - exact (for_step2_chunks path_pass arrCoords ctx).
  - destruct (chunks arrCoords) as [|[x y] cs]; simpl.
    + by rewrite app_nil_r.
    + rewrite fold_chunks_lineTo by lia. unfold path_pass. simpl. by rewrite <-app_assoc.
Qed.

(** Every operation but [polygon] issues its path and then what [draw] issues. *)
Lemma canvas_call_run (op : canvas.Shape) (style : option Style) (ctx : canvas.Context2D) :
  (∀ arrCoords, op ≠ canvas.Polygon arrCoords) →
  canvas.call op style ctx
  = (ctx ++ path_of op ++ paint style, completion_of (canvas.draw style) []).
Proof.
  intros Hop. destruct op; try (by exfalso; eapply Hop);
    unfold canvas.call, canvas.circle, canvas.ellipse, canvas.rect, canvas.line,
      canvas.polyline, canvas.emit, bind, modify; rewrite ?polyline_loop_run;
    rewrite canvas_draw_run; simpl; rewrite <-?app_assoc; done.
Qed.

(** [polygon] calls [polyline] with its array where the context belongs:
    the call of [beginPath] on the array throws, and nothing reaches the
    context. *)
Lemma canvas_polygon_run (arrCoords : list num) (style : option Style)
    (ctx : canvas.Context2D) :
  canvas.polygon arrCoords style ctx
  = (ctx, Throw (TypeError (not_a_function "beginPath"))).
Proof. reflexivity. Qed.

Lemma canvas_polygon_issued (arrCoords : list num) (style : option Style)
    (ctx : canvas.Context2D) :
  issued (canvas.call (canvas.Polygon arrCoords) style) ctx = [].
Proof. apply (issued_app _ _ _ (Throw (TypeError (not_a_function "beginPath")))).
  by rewrite app_nil_r. Qed.

(** What [draw] issues. *)
Lemma paint_fill (st : Style) (c : string) :
  fillColor st = Some c →
  ∃ rest, paint (Some st)
          = canvas.set_fillStyle
              (match fillOpacity st with
               | Some o => toRGBA c (Some o)
               | None => toRGBA c None
               end) :: canvas.fill :: rest
        ∧ (canvas.fill ∉ rest) ∧ (∀ s, canvas.set_fillStyle s ∉ rest).
Proof.
  destruct st as [fc fo lc lw lj lcap lo]. simpl. intros ->. canvas_run. simpl.
  destruct lc, (from_option (fun w => negb (num_is_zero w)) true lw); simpl;
    eexists; (split; [reflexivity|]); split; try intros s; set_solver.
Qed.

Lemma paint_no_fill (st : Style) :
  fillColor st = None → canvas.fill ∉ paint (Some st).
Proof.
  destruct st as [fc fo lc lw lj lcap lo]. simpl. intros ->. canvas_run. simpl.
  destruct lc, (from_option (fun w => negb (num_is_zero w)) true lw); simpl;
    set_solver.
Qed.

(** The stroke part of [draw]: present exactly when a stroke is wanted, and
    then made of these five commands. *)
Lemma paint_stroke (st : Style) (c : string) :
  lineColor st = Some c → stroke_wanted st = true →
  ∃ before, paint (Some st)
    = before ++
      [canvas.set_lineWidth (from_option id (num_of_Z 1) (lineWidth st));
       canvas.set_lineJoin (from_option id "round" (lineJoin st));
       canvas.set_lineCap (from_option id "butt" (lineCap st));
       canvas.set_strokeStyle
         (match lineOpacity st with
          | Some o => toRGBA c (Some o)
          | None => toRGBA c None
          end);
       canvas.stroke]
    ∧ canvas.stroke ∉ before.
Proof.
  destruct st as [fc fo lc lw lj lcap lo]. unfold stroke_wanted. simpl.
  intros -> Hw. rewrite andb_true_iff in Hw. destruct Hw as [_ Hw].
  canvas_run. simpl. rewrite Hw. destruct fc; simpl.
  - eexists [_; _]. split; [reflexivity | set_solver].
  - exists []. split; [reflexivity | set_solver].
Qed.

Lemma paint_no_stroke (st : Style) :
  stroke_wanted st = false → canvas.stroke ∉ paint (Some st).
Proof.
  destruct st as [fc fo lc lw lj lcap lo]. unfold stroke_wanted. simpl.
  intros Hw. canvas_run. simpl.
  destruct fc, lc as [c|]; simpl in *;
    try (rewrite bool_decide_eq_true_2 in Hw by eauto; simpl in Hw; rewrite Hw);
    try destruct (from_option _ _ lw); simpl; set_solver.
Qed.

(** The path of an operation has no paint command in it. *)
Lemma path_commands_moves (cs : list (value * value)) (c : canvas.Command) :
  c ∈ path_commands cs → (∃ x y, c = canvas.moveTo x y) ∨ (∃ x y, c = canvas.lineTo x y).
Proof.
  destruct cs as [|[x y] cs]; simpl; [set_solver|].
  rewrite elem_of_cons, list_elem_of_fmap. intros [->|([x' y'] & -> & _)]; eauto.
Qed.

Lemma path_of_no_paint (op : canvas.Shape) :
  (canvas.stroke ∉ path_of op) ∧ (canvas.fill ∉ path_of op).
Proof.
  destruct op; simpl; try set_solver.
  - split; rewrite not_elem_of_cons; (split; [done|]);
      intros [(? & ? & ?)|(? & ? & ?)]%path_commands_moves; done.
  - split; rewrite not_elem_of_cons, not_elem_of_app; (split; [done|]);
      (split; [|set_solver]);
      intros [(? & ? & ?)|(? & ? & ?)]%path_commands_moves; done.
Qed.

Lemma issued_draw (style : option Style) (ctx : canvas.Context2D) :
  issued (canvas.draw style) ctx = paint style.
Proof. eapply issued_app, canvas_draw_run. Qed.

Lemma issued_call (op : canvas.Shape) (style : option Style) (ctx : canvas.Context2D) :
  (∀ arrCoords, op ≠ canvas.Polygon arrCoords) →
  issued (canvas.call op style) ctx = path_of op ++ paint style.
Proof. intros Hop. eapply issued_app, canvas_call_run, Hop. Qed.

Lemma canvas_draw_normal (st : Style) :
  completion_of (canvas.draw (Some st)) [] = Normal tt.
Proof.
  destruct st as [fc fo lc lw lj lcap lo]. canvas_run. simpl.
  by destruct fc, lc, (from_option (fun w => negb (num_is_zero w)) true lw).
Qed.

(** Every stroke colour [draw] sets is the resolved line colour. *)
Lemma paint_strokeStyle (st : Style) (c s : string) :
  lineColor st = Some c → canvas.set_strokeStyle s ∈ paint (Some st) →
  s = match lineOpacity st with
      | Some o => toRGBA c (Some o)
      | None => toRGBA c None
      end.
Proof.
  destruct st as [fc fo lc lw lj lcap lo]. simpl. intros ->. canvas_run. simpl.
  destruct fc, (from_option (fun w => negb (num_is_zero w)) true lw); simpl;
    set_solver.
Qed.

(** Without a style object the five operations that reach [draw] throw at the
    first read of a property of [style], after their path was issued. *)
Lemma canvas_call_no_style (op : canvas.Shape) (ctx : canvas.Context2D) :
  (∀ arrCoords, op ≠ canvas.Polygon arrCoords) →
  canvas.call op None ctx
  = (ctx ++ path_of op, Throw (TypeError (read_property_of_undefined "fillColor"))).
Proof.
  intros Hop. rewrite canvas_call_run by done.
  unfold paint, store_after, completion_of. simpl. by rewrite app_nil_r.
Qed.

(** On the five operations that reach [draw], a stroke is issued exactly when
    one is wanted. *)
Lemma canvas_stroke_iff (op : canvas.Shape) (st : Style) (ctx : canvas.Context2D) :
  (∀ arrCoords, op ≠ canvas.Polygon arrCoords) →
  canvas.stroke ∈ issued (canvas.call op (Some st)) ctx ↔ stroke_wanted st = true.
Proof.
  intros Hop. rewrite issued_call by done. rewrite elem_of_app. split.
  - intros [Hin|Hin]; [by apply path_of_no_paint in Hin|].
    destruct (stroke_wanted st) eqn:Hw; [done|]. by apply paint_no_stroke in Hin.
  - intros Hw. right. unfold stroke_wanted in Hw. apply andb_true_iff in Hw as Hw'.
    destruct Hw' as [[c Hc]%bool_decide_eq_true _].
    destruct (paint_stroke st c Hc Hw) as (before & -> & _). set_solver.
Qed.

End canvas_properties.

(** ** The runtime of the examples *)

(** The colour module of the examples keeps the contract of the resolver. *)
Lemma runtime_color_contract : @ColorContract runtime.decimal_number runtime.color.
Proof.
  split.
  - intros c a. unfold toRGBA, alpha_channel. simpl.
    destruct (runtime.components c) as [rgb a0]. by exists rgb.
  - intros c o. unfold toRGBA. simpl.
    destruct (runtime.components c) as [rgb a0]. unfold runtime.rgba.
    rewrite !string_app_cons. discriminate.
Qed.

(** ** The drawing contract *)

Import runtime.

(** C7: for every coordinate list [x1, y1, ..., xn, yn], the vector
    [polyline] and [polygon] leave the [points] attribute of their element set
    to exactly ["x1 y1,x2 y2,...,xn yn"] (a space inside a pair, a comma between
    pairs), whether or not a style object was passed; the empty list gives the
    empty string.  By [even_length_coords] these are all the lists of even
    length. *)
Theorem svg_points_attribute `{ColorUtil} (pairs : list (num * num)) (element : nat)
    (style : option Style) (doc : Document) :
  is_Some (doc !! element) →
  attribute (store_after (svg.polyline element (coords_of pairs) style) doc)
    element "points" = Some (points_string pairs)
  ∧ attribute (store_after (svg.polygon element (coords_of pairs) style) doc)
      element "points" = Some (points_string pairs)
  ∧ svg.getCoordsAsString [] = "".
Proof.
  intros He. split; [|split].
  - by rewrite svg_polyline_points, getCoordsAsString_even.
  - change (svg.polygon element (coords_of pairs) style)
      with (svg.polyline element (coords_of pairs) style).
    by rewrite svg_polyline_points, getCoordsAsString_even.
  - exact (getCoordsAsString_even []).
Qed.

Lemma svg_points_attribute_witness :
  is_Some (example.one_circle !! 1)
  ∧ attribute
      (store_after
         (svg.polyline 1 (coords_of [(example.n 0, example.n 0); (example.n 10, example.n 5)])
            (Some example.blue))
         example.one_circle)
      1 "points" = Some "0 0,10 5".
Proof.
  assert (is_Some (example.one_circle !! 1)) as He by (eexists; reflexivity).
  split; [exact He|].
  exact (proj1 (svg_points_attribute
                  [(example.n 0, example.n 0); (example.n 10, example.n 5)]
                  1 (Some example.blue) example.one_circle He)).
Defined.

(** C10: the vector [polygon] does exactly what the vector [polyline] does on
    the same element, coordinate list and style: the same document results
    and the call completes the same way.  With a style object both write the
    points attribute and the five style attributes on the element and nothing
    else; no step of [polygon] closes the path. *)
Theorem svg_polygon_same_as_polyline `{ColorUtil} (element : nat)
    (arrCoords : list num) (style : option Style) (doc : Document) :
  svg.polygon element arrCoords style doc = svg.polyline element arrCoords style doc
  ∧ ∀ st, style = Some st →
      ∃ l, map fst l = ["points"; "fill"; "stroke"; "stroke-width";
                        "stroke-linejoin"; "stroke-linecap"]
         ∧ l !! 0 = Some ("points", str (svg.getCoordsAsString arrCoords))
         ∧ svg.polygon element arrCoords style doc
           = (alter (dom.set_attributes (write_all l)) element doc, Normal tt).
Proof.
  split; [reflexivity|]. intros st ->.
  destruct (svg_draw_run element st
              (alter (dom.set_attributes
                        (write_all [("points", str (svg.getCoordsAsString arrCoords))]))
                 element doc)) as (l & Hdraw & Hnames).
  exists (("points", str (svg.getCoordsAsString arrCoords)) :: l).
  split; [simpl; by f_equal|]. split; [done|].
  unfold svg.polygon, bind. rewrite attr_run, Hdraw, alter_attributes_twice. done.
Qed.

Lemma svg_polygon_same_as_polyline_witness :
  ∃ l, map fst l = ["points"; "fill"; "stroke"; "stroke-width";
                    "stroke-linejoin"; "stroke-linecap"]
     ∧ l !! 0 = Some ("points", str (svg.getCoordsAsString example.square))
     ∧ svg.polygon 1 example.square (Some example.blue) example.one_circle
       = (alter (dom.set_attributes (write_all l)) 1 example.one_circle, Normal tt).
Proof.
  exact (proj2 (svg_polygon_same_as_polyline 1 example.square (Some example.blue)
                  example.one_circle) example.blue eq_refl).
Defined.

(** C3: the vector [clear] changes nothing: after it the surface has the
    children it had, so a surface with a shape on it is not cleared.  (It is
    [empty] that removes the children, see [svg_empty_removes_children].) *)
Theorem svg_clear_keeps_children (element : nat) (doc : Document) :
  svg.clear element doc = (doc, Normal tt)
  ∧ children (store_after (svg.clear 0) example.one_circle) 0 = [1].
Proof. split; reflexivity. Qed.

(** C4: [polygon(ctx, [0,0, 10,0, 10,10, 0,10], {fillColor:'blue'})] on the
    raster back end throws a TypeError and issues no command at all: no path
    is traced or closed, and nothing is filled. *)
Theorem canvas_polygon_square :
  canvas.polygon example.square (Some example.blue) []
  = ([], Throw (TypeError (not_a_function "beginPath")))
  ∧ issued (canvas.call (canvas.Polygon example.square) (Some example.blue)) [] = []
  ∧ path_of (canvas.Polygon example.square) ++ paint (Some example.blue)
    = [canvas.beginPath;
       canvas.moveTo (number (example.n 0)) (number (example.n 0));
       canvas.lineTo (number (example.n 10)) (number (example.n 0));
       canvas.lineTo (number (example.n 10)) (number (example.n 10));
       canvas.lineTo (number (example.n 0)) (number (example.n 10));
       canvas.closePath;
       canvas.set_fillStyle "rgba(0,0,255,1)";
       canvas.fill].
Proof. split; [|split]; reflexivity. Qed.

(** C1: when a style has both [fillColor] and [fillOpacity], the fill colour
    either back end uses is the result of passing the opacity through the
    colour resolver (the vector [draw] resolves the colour first and passes
    the result with the opacity, the raster [draw] passes colour and opacity at
    once), so under the contract of the resolver its alpha channel is the
    explicit opacity; the same for [lineColor] and [lineOpacity] and the
    stroke colour. *)
Theorem explicit_opacity_overrides `{ColorUtil} {contract : ColorContract}
    (st : Style) (c : string) (a : num) (element : nat) (doc : Document)
    (ctx : canvas.Context2D) :
  is_Some (doc !! element) →
  (fillColor st = Some c → fillOpacity st = Some a →
     (∃ s, attribute (store_after (svg.draw element (Some st)) doc) element "fill" = Some s
         ∧ s = toRGBA (toRGBA c None) (Some a) ∧ alpha_channel s a)
     ∧ (∃ s rest, issued (canvas.draw (Some st)) ctx
                  = canvas.set_fillStyle s :: canvas.fill :: rest
         ∧ s = toRGBA c (Some a) ∧ alpha_channel s a
         ∧ (∀ s', canvas.set_fillStyle s' ∉ rest)))
  ∧ (lineColor st = Some c → lineOpacity st = Some a →
     (∃ s, attribute (store_after (svg.draw element (Some st)) doc) element "stroke" = Some s
         ∧ s = toRGBA (toRGBA c None) (Some a) ∧ alpha_channel s a)
     ∧ (∀ s, canvas.set_strokeStyle s ∈ issued (canvas.draw (Some st)) ctx →
             s = toRGBA c (Some a) ∧ alpha_channel s a)
     ∧ (stroke_wanted st = true →
          ∃ before w j k, issued (canvas.draw (Some st)) ctx
            = before ++ [canvas.set_lineWidth w; canvas.set_lineJoin j;
                         canvas.set_lineCap k;
                         canvas.set_strokeStyle (toRGBA c (Some a));
                         canvas.stroke])).
Proof.
  intros He. split; intros Hc Ha; rewrite issued_draw.
  - split.
    + eexists. split; [by apply svg_draw_fill|]. split; [done|apply toRGBA_alpha].
    + destruct (paint_fill st c Hc) as (rest & -> & _ & Hrest). rewrite Ha.
      eexists _, rest. repeat split; try done. apply toRGBA_alpha.
  - split; [|split].
    + eexists. split; [by apply svg_draw_stroke|]. split; [done|apply toRGBA_alpha].
    + intros s Hs. apply (paint_strokeStyle st c s Hc) in Hs. rewrite Ha in Hs.
      subst s. split; [done|apply toRGBA_alpha].
    + intros Hw. destruct (paint_stroke st c Hc Hw) as (before & -> & _).
      rewrite Ha. by eexists before, _, _, _.
Qed.

Lemma explicit_opacity_overrides_witness :
  is_Some (example.one_circle !! 1)
  ∧ fillColor example.translucent = Some "rgba(255,0,0,1)"
  ∧ fillOpacity example.translucent = Some (mkDecimal 5 1)
  ∧ ∃ s, attribute (store_after (svg.draw 1 (Some example.translucent)) example.one_circle)
           1 "fill" = Some s
       ∧ s = "rgba(255,0,0,0.5)" ∧ alpha_channel s (mkDecimal 5 1).
Proof.
  assert (is_Some (example.one_circle !! 1)) as He by (eexists; reflexivity).
  split; [exact He|]. split; [reflexivity|]. split; [reflexivity|].
  exact (proj1 (proj1 (explicit_opacity_overrides (contract := runtime_color_contract)
                         example.translucent "rgba(255,0,0,1)" (mkDecimal 5 1)
                         1 example.one_circle [] He)
                  eq_refl eq_refl)).
Defined.

(** C2, as stated, fails: with the three coordinates [[1, 2, 3]] neither back
    end raises an error; the vector [polyline] writes the points attribute
    and the raster [polyline] traces and paints the path. *)
Lemma odd_polyline_completes :
  completion_of (svg.polyline 1 [example.n 1; example.n 2; example.n 3]
                   (Some example.blue)) example.one_circle = Normal tt
  ∧ attribute (store_after (svg.polyline 1 [example.n 1; example.n 2; example.n 3]
                              (Some example.blue)) example.one_circle) 1 "points"
    = Some "1 2,3 undefined"
  ∧ canvas.call (canvas.Polyline [example.n 1; example.n 2; example.n 3])
      (Some example.blue) []
    = ([canvas.beginPath;
        canvas.moveTo (number (example.n 1)) (number (example.n 2));
        canvas.lineTo (number (example.n 3)) undefined;
        canvas.set_fillStyle "rgba(0,0,255,1)";
        canvas.fill],
       Normal tt).
Proof.
  split; [apply svg_polyline_normal|]. split; [|reflexivity].
  rewrite svg_polyline_points by (eexists; reflexivity). reflexivity.
Qed.

(** C2, amended: a coordinate list of odd length raises no error.  The
    vector [polyline] and [polygon], called with a style object, complete
    normally and set the points attribute to the pairs followed by the last
    coordinate and the text [undefined]; the raster [polyline] completes
    normally, having traced the pairs and a last point whose second coordinate
    is [undefined], and painted. *)
Theorem odd_coordinates_are_drawn `{ColorUtil} (pairs : list (num * num)) (x : num)
    (st : Style) (element : nat) (doc : Document) (ctx : canvas.Context2D) :
  is_Some (doc !! element) →
  let arrCoords := coords_of pairs ++ [x] in
  let points :=
    join_comma (map (fun p => num_to_string p.1 +:+ " " +:+ num_to_string p.2) pairs
                  ++ [num_to_string x +:+ " undefined"]) in
  (completion_of (svg.polyline element arrCoords (Some st)) doc = Normal tt
   ∧ attribute (store_after (svg.polyline element arrCoords (Some st)) doc)
       element "points" = Some points)
  ∧ (completion_of (svg.polygon element arrCoords (Some st)) doc = Normal tt
     ∧ attribute (store_after (svg.polygon element arrCoords (Some st)) doc)
         element "points" = Some points)
  ∧ (completion_of (canvas.call (canvas.Polyline arrCoords) (Some st)) ctx = Normal tt
     ∧ issued (canvas.call (canvas.Polyline arrCoords) (Some st)) ctx
       = canvas.beginPath
           :: path_commands (map (fun p => (number p.1, number p.2)) pairs
                               ++ [(number x, undefined)])
           ++ paint (Some st)).
Proof.
  intros He arrCoords points. subst arrCoords points.
  assert (completion_of (svg.polyline element (coords_of pairs ++ [x]) (Some st)) doc
          = Normal tt
          ∧ attribute
              (store_after (svg.polyline element (coords_of pairs ++ [x]) (Some st)) doc)
              element "points"
            = Some (svg.getCoordsAsString (coords_of pairs ++ [x]))) as Hsvg.
  { split; [apply svg_polyline_normal | by apply svg_polyline_points]. }
  rewrite getCoordsAsString_odd in Hsvg.
  split; [exact Hsvg|]. split; [exact Hsvg|]. split.
  - unfold completion_of. rewrite canvas_call_run by done. apply canvas_draw_normal.
  - rewrite issued_call by done. simpl. by rewrite chunks_coords_of_snoc.
Qed.

Lemma odd_coordinates_are_drawn_witness :
  is_Some (example.one_circle !! 1)
  ∧ attribute
      (store_after
         (svg.polygon 1 (coords_of [(example.n 1, example.n 2)] ++ [example.n 3])
            (Some example.blue))
         example.one_circle)
      1 "points" = Some "1 2,3 undefined".
Proof.
  assert (is_Some (example.one_circle !! 1)) as He by (eexists; reflexivity).
  split; [exact He|].
  exact (proj2 (proj1 (proj2 (odd_coordinates_are_drawn [(example.n 1, example.n 2)]
                                (example.n 3) example.blue 1 example.one_circle [] He)))).
Defined.




(** C6: on the raster [polygon] no stroke command is ever issued, even when
    the style has a line colour and a line width that is not [0]; each of the
    other five operations issues it for such a style (and only for such a
    style, see [canvas_stroke_iff]; with the defaults [1], [round] and [butt],
    see [paint_stroke]). *)
Theorem canvas_polygon_never_strokes `{ColorUtil} (arrCoords : list num) (st : Style)
    (ctx : canvas.Context2D) :
  stroke_wanted st = true →
  (canvas.stroke ∉ issued (canvas.call (canvas.Polygon arrCoords) (Some st)) ctx)
  ∧ (∀ op, (∀ a, op ≠ canvas.Polygon a) →
           canvas.stroke ∈ issued (canvas.call op (Some st)) ctx).
Proof.
  intros Hw. split.
  - rewrite canvas_polygon_issued. set_solver.
  - intros op Hop. by apply canvas_stroke_iff.
Qed.

Lemma canvas_polygon_never_strokes_witness :
  stroke_wanted example.black_line = true
  ∧ canvas.stroke ∉ issued (canvas.call (canvas.Polygon example.square)
                              (Some example.black_line)) [].
Proof.
  assert (stroke_wanted example.black_line = true) as Hw by reflexivity.
  split; [exact Hw|].
  exact (proj1 (canvas_polygon_never_strokes example.square example.black_line [] Hw)).
Defined.

(** C9: without a style object the raster [polygon] throws a TypeError that
    does not come from a read of a property of [style]: it comes from the call
    of [beginPath] on the coordinate array, before anything is issued.  Every
    other shape operation of the two back ends throws at the read of
    [style.fillColor], after its attribute writes or its path. *)
Theorem canvas_polygon_without_style `{ColorUtil} (arrCoords : list num)
    (ctx : canvas.Context2D) :
  canvas.call (canvas.Polygon arrCoords) None ctx
  = (ctx, Throw (TypeError (not_a_function "beginPath")))
  ∧ completion_of (canvas.call (canvas.Polygon arrCoords) None) ctx
    ≠ Throw (TypeError (read_property_of_undefined "fillColor"))
  ∧ (∀ (op : canvas.Shape), (∀ a, op ≠ canvas.Polygon a) →
       canvas.call op None ctx
       = (ctx ++ path_of op, Throw (TypeError (read_property_of_undefined "fillColor"))))
  ∧ (∀ (op : svg.Shape) (element : nat) (doc : Document),
       completion_of (svg.call op element None) doc
       = Throw (TypeError (read_property_of_undefined "fillColor"))).
Proof.
  split; [reflexivity|]. split; [discriminate|]. split.
  - intros op Hop. by apply canvas_call_no_style.
  - intros op element doc. apply svg_call_no_style.
Qed.

(** ** Back-end selection *)

Lemma draw_calls_none {A : Type} (browser : Browser) (ops : list (selection.Backend → A)) :
  selection.draw_calls browser ops (selection.resolved None)
  = (selection.resolved None,
     map (fun _ => selection.ConfigurationError "no supported rendering backend") ops).
Proof.
  induction ops as [|op ops IH]; [done|].
  simpl. unfold selection.draw_call. simpl. by rewrite IH.
Qed.

(** C8: the first query probes the vector back end, then the raster one, and
    selects the first that reports support; the selection is kept, whatever
    the probes would answer later; and when neither is supported every draw
    call, the first and all that follow, fails with a configuration error. *)
Theorem selection_probes_vector_then_raster (browser : Browser) :
  (svg.isSupported browser = true →
     selection.query browser selection.untested
     = (selection.resolved (Some selection.Vector), Some selection.Vector))
  ∧ (svg.isSupported browser = false → canvas.isSupported browser = true →
     selection.query browser selection.untested
     = (selection.resolved (Some selection.Raster), Some selection.Raster))
  ∧ (∀ (st : selection.State) (later : Browser),
       selection.query later (selection.query browser st).1
       = selection.query browser st)
  ∧ (svg.isSupported browser = false → canvas.isSupported browser = false →
     ∀ (A : Type) (ops : list (selection.Backend → A)),
       selection.draw_calls browser ops selection.untested
       = (match ops with
          | [] => selection.untested
          | _ => selection.resolved None
          end,
          map (fun _ => selection.ConfigurationError "no supported rendering backend")
            ops)).
Proof.
  unfold selection.query, selection.probe. split; [|split; [|split]].
  - by intros ->.
  - by intros -> ->.
  - by intros [|b] later.
  - intros Hs Hc A [|op ops]; [done|]. simpl.
    unfold selection.draw_call, selection.query, selection.probe.
    rewrite Hs, Hc. by rewrite draw_calls_none.
Qed.

Lemma selection_probes_vector_then_raster_witness :
  svg.isSupported example.bare_browser = false
  ∧ canvas.isSupported example.bare_browser = false
  ∧ selection.draw_calls example.bare_browser
      [fun _ => "circle"; fun _ => "rect"] selection.untested
    = (selection.resolved None,
       [selection.ConfigurationError "no supported rendering backend";
        selection.ConfigurationError "no supported rendering backend"]).
Proof.
  split; [reflexivity|]. split; [reflexivity|].
  exact (proj2 (proj2 (proj2 (selection_probes_vector_then_raster example.bare_browser)))
           eq_refl eq_refl string [fun _ => "circle"; fun _ => "rect"]).
Defined.

(** * Further properties of the modules *)

(** ** Attribute writes *)

Section attribute_writes.
Context `{Number}.

Lemma write_all_app (l1 l2 : list (string * value)) (m : gmap string string) :
  write_all (l1 ++ l2) m = write_all l2 (write_all l1 m).
Proof. apply foldl_app. Qed.

(** Where a name is written, the attribute after the writes does not depend
    on what the element had. *)
Lemma write_all_lookup_in (l : list (string * value)) (name : string)
    (m m' : gmap string string) :
  name ∈ map fst l → write_all l m !! name = write_all l m' !! name.
Proof.
  revert m m'. induction l as [|[k v] l IH]; intros m m' Hin; simpl in *.
  - by apply elem_of_nil in Hin.
  - destruct (decide (name ∈ map fst l)) as [Hl|Hl]; [by apply IH|].
    apply elem_of_cons in Hin as [->|Hin]; [|done].
    by rewrite !write_all_other, !lookup_insert_eq by done.
Qed.

(** Writes whose names are all written again are of no consequence. *)
Lemma write_all_overwrite (l1 l2 : list (string * value)) (m : gmap string string) :
  map fst l1 ⊆ map fst l2 → write_all l2 (write_all l1 m) = write_all l2 m.
Proof.
  intros Hsub. apply map_eq. intros name.
  destruct (decide (name ∈ map fst l2)) as [Hin|Hin].
  - by apply write_all_lookup_in.
  - rewrite (write_all_other l2 name (write_all l1 m)) by done.
    rewrite (write_all_other l2 name m) by done. apply write_all_other.
    intros Hin1. by apply Hin, Hsub.
Qed.


(** With names written once each, every attribute holds the text of its
    value. *)
Lemma write_all_lookup_NoDup (l : list (string * value)) (name : string) (v : value)
    (m : gmap string string) :
  NoDup (map fst l) → (name, v) ∈ l → write_all l m !! name = Some (ToString v).
Proof.
  revert m. induction l as [|[k w] l IH]; intros m Hnd Hin; simpl in *.
  - by apply elem_of_nil in Hin.
  - apply NoDup_cons in Hnd as [Hk Hnd].
    apply elem_of_cons in Hin as [[= -> ->]|Hin]; [|by apply IH].
    by rewrite write_all_other, lookup_insert_eq.
Qed.

End attribute_writes.

(** ** Module [svg]: what a shape operation writes *)

Section svg_writes.
Context `{ColorUtil}.

Lemma svg_draw_writes (element : nat) (st : Style) :
  ∃ l, map fst l = style_names
     ∧ ∀ doc, svg.draw element (Some st) doc
              = (alter (dom.set_attributes (write_all l)) element doc, Normal tt).
Proof. eexists. split; cycle 1; [intros doc; svg_run|]; reflexivity. Qed.

Lemma attr_then_draw (element : nat) (geometry : list (string * value))
    (style : option Style) :
  ∃ l, map fst l = map fst geometry
                     ++ match style with Some _ => style_names | None => [] end
     ∧ ∀ doc, (dom.attr element (Some geometry) ;; svg.draw element style) doc
              = (alter (dom.set_attributes (write_all l)) element doc,
                 svg_completion style).
Proof.
  destruct style as [st|].
  - destruct (svg_draw_writes element st) as (l & Hnames & Hdraw).
    exists (geometry ++ l). split; [by rewrite map_app, Hnames|].
    intros doc. unfold bind. rewrite attr_run, Hdraw, alter_attributes_twice. simpl.
    f_equal. apply alter_ext. intros e _. unfold dom.set_attributes. f_equal.
    by rewrite write_all_app.
  - exists geometry. split; [by rewrite app_nil_r|].
    intros doc. unfold bind. by rewrite attr_run.
Qed.

(** The writes of a shape operation: a list that depends on the operation and
    the style alone, and names [written_names]. *)
Lemma svg_call_writes (op : svg.Shape) (element : nat) (style : option Style) :
  ∃ l, map fst l = written_names op style
     ∧ ∀ doc, svg.call op element style doc
              = (alter (dom.set_attributes (write_all l)) element doc,
                 svg_completion style).
Proof.
  destruct op;
    unfold svg.call, svg.circle, svg.ellipse, svg.rect, svg.line, svg.polyline,
      svg.polygon;
    match goal with
    | |- context [dom.attr _ (Some ?g)] => exact (attr_then_draw element g style)
    end.
Qed.

End svg_writes.

Section svg_more.
Context `{ColorUtil}.

(** A shape operation is its geometry writes followed by [draw]. *)
Lemma svg_call_draw (op : svg.Shape) (element : nat) (style : option Style) :
  ∃ g, map fst g = geometry_names op ∧ NoDup (map fst g)
     ∧ (∀ doc, svg.call op element style doc
               = svg.draw element style
                   (alter (dom.set_attributes (write_all g)) element doc))
     ∧ match op with
       | svg.Circle cx cy r => g = [("cx", number cx); ("cy", number cy); ("r", number r)]
       | svg.Ellipse cx cy rx ry =>
           g = [("cx", number cx); ("cy", number cy); ("rx", number rx); ("ry", number ry)]
       | svg.Rect x y w h =>
           g = [("x", number x); ("y", number y); ("width", number w); ("height", number h)]
       | svg.Line x1 y1 x2 y2 =>
           g = [("x1", number x1); ("y1", number y1); ("x2", number x2); ("y2", number y2)]
       | svg.Polyline a | svg.Polygon a => g = [("points", str (svg.getCoordsAsString a))]
       end.
Proof.
  destruct op; eexists; (split; [|split; [|split; [|reflexivity]]]);
    try (intros doc; unfold svg.call, svg.circle, svg.ellipse, svg.rect, svg.line,
           svg.polyline, svg.polygon, bind; rewrite attr_run; reflexivity);
    try reflexivity; simpl; repeat constructor; set_solver.
Qed.

Lemma svg_draw_keeps_others (element : nat) (style : option Style) (doc : Document)
    (name : string) :
  name ∉ style_names →
  attribute (store_after (svg.draw element style) doc) element name
  = attribute doc element name.
Proof.
  intros Hname. destruct style as [st|]; [|done].
  destruct (svg_draw_writes element st) as (l & Hnames & Hdraw).
  unfold store_after. rewrite Hdraw. cbn [fst]. rewrite attribute_alter.
  unfold attribute. destruct (doc !! element) as [e|]; [|done]. simpl.
  apply write_all_other. by rewrite Hnames.
Qed.

(** The five style attributes after [draw], as the source computes them. *)
Lemma svg_draw_attributes (element : nat) (st : Style) (doc : Document) :
  is_Some (doc !! element) →
  let doc' := store_after (svg.draw element (Some st)) doc in
  let fill0 := match fillColor st with Some c => toRGBA c None | None => "none" end in
  let stroke0 := match lineColor st with Some c => toRGBA c None | None => "none" end in
  attribute doc' element "fill"
  = Some (match bool_decide (fill0 ≠ "none"), fillOpacity st with
          | true, Some o => toRGBA fill0 (Some o)
          | _, _ => fill0
          end)
  ∧ attribute doc' element "stroke"
    = Some (match bool_decide (stroke0 ≠ "none"), lineOpacity st with
            | true, Some o => toRGBA stroke0 (Some o)
            | _, _ => stroke0
            end)
  ∧ attribute doc' element "stroke-width"
    = Some (num_to_string (from_option id (num_of_Z 1) (lineWidth st)))
  ∧ attribute doc' element "stroke-linejoin" = Some (from_option id "round" (lineJoin st))
  ∧ attribute doc' element "stroke-linecap" = Some (from_option id "butt" (lineCap st)).
Proof.
  intros [e He] doc' fill0 stroke0. subst doc'. svg_run.
  rewrite !attribute_alter, He. simpl.
  repeat split; by rewrite ?lookup_insert_ne, lookup_insert_eq by done.
Qed.

End svg_more.

(** ** Module [svg]: geometry, style and redrawing *)

Ltac not_a_style_name :=
  unfold style_names; repeat (apply not_elem_of_cons; split; [done|]);
  apply not_elem_of_nil.

Section svg_geometry.
Context `{ColorUtil}.

Lemma svg_geometry_attribute (op : svg.Shape) (element : nat) (style : option Style)
    (doc : Document) (g : list (string * value)) (name : string) (v : value) :
  (∀ doc, svg.call op element style doc
          = svg.draw element style (alter (dom.set_attributes (write_all g)) element doc)) →
  NoDup (map fst g) → (name, v) ∈ g → name ∉ style_names →
  is_Some (doc !! element) →
  attribute (store_after (svg.call op element style) doc) element name
  = Some (ToString v).
Proof.
  intros Hcall Hnd Hin Hname [e He]. unfold store_after. rewrite Hcall.
  fold (store_after (svg.draw element style)
          (alter (dom.set_attributes (write_all g)) element doc)).
  rewrite svg_draw_keeps_others, attribute_alter, He by done. simpl.
  by apply write_all_lookup_NoDup.
Qed.

End svg_geometry.

(** X1: each vector shape operation leaves the geometry of the shape in the
    attributes of its element, as the text of the numbers passed: [cx], [cy],
    [r] for a circle; [cx], [cy], [rx], [ry] for an ellipse; [x], [y], [width],
    [height] for a rectangle; [x1], [y1], [x2], [y2] for a line.  This holds
    with and without a style object (without one the call throws after these
    writes). *)
Theorem svg_geometry_attributes `{ColorUtil} (element : nat) (style : option Style)
    (doc : Document) (a b c d : num) :
  is_Some (doc !! element) →
  (let doc' := store_after (svg.circle element a b c style) doc in
   attribute doc' element "cx" = Some (num_to_string a)
   ∧ attribute doc' element "cy" = Some (num_to_string b)
   ∧ attribute doc' element "r" = Some (num_to_string c))
  ∧ (let doc' := store_after (svg.ellipse element a b c d style) doc in
     attribute doc' element "cx" = Some (num_to_string a)
     ∧ attribute doc' element "cy" = Some (num_to_string b)
     ∧ attribute doc' element "rx" = Some (num_to_string c)
     ∧ attribute doc' element "ry" = Some (num_to_string d))
  ∧ (let doc' := store_after (svg.rect element a b c d style) doc in
     attribute doc' element "x" = Some (num_to_string a)
     ∧ attribute doc' element "y" = Some (num_to_string b)
     ∧ attribute doc' element "width" = Some (num_to_string c)
     ∧ attribute doc' element "height" = Some (num_to_string d))
  ∧ (let doc' := store_after (svg.line element a b c d style) doc in
     attribute doc' element "x1" = Some (num_to_string a)
     ∧ attribute doc' element "y1" = Some (num_to_string b)
     ∧ attribute doc' element "x2" = Some (num_to_string c)
     ∧ attribute doc' element "y2" = Some (num_to_string d)).
Proof.
  intros He.
  assert (∀ op g name n,
            (∀ doc, svg.call op element style doc
                    = svg.draw element style
                        (alter (dom.set_attributes (write_all g)) element doc)) →
            NoDup (map fst g) → (name, number n) ∈ g → name ∉ style_names →
            attribute (store_after (svg.call op element style) doc) element name
            = Some (num_to_string n)) as Hattr.
  { intros op g name n Hcall Hnd Hin Hname.
    by apply (svg_geometry_attribute op element style doc g name (number n)). }
  split; [|split; [|split]].
  - destruct (svg_call_draw (svg.Circle a b c) element style) as (g & _ & Hnd & Hcall & ->).
    repeat split; apply (Hattr (svg.Circle a b c) _ _ _ Hcall Hnd);
      first [set_solver | not_a_style_name].
  - destruct (svg_call_draw (svg.Ellipse a b c d) element style)
      as (g & _ & Hnd & Hcall & ->).
    repeat split; apply (Hattr (svg.Ellipse a b c d) _ _ _ Hcall Hnd);
      first [set_solver | not_a_style_name].
  - destruct (svg_call_draw (svg.Rect a b c d) element style)
      as (g & _ & Hnd & Hcall & ->).
    repeat split; apply (Hattr (svg.Rect a b c d) _ _ _ Hcall Hnd);
      first [set_solver | not_a_style_name].
  - destruct (svg_call_draw (svg.Line a b c d) element style)
      as (g & _ & Hnd & Hcall & ->).
    repeat split; apply (Hattr (svg.Line a b c d) _ _ _ Hcall Hnd);
      first [set_solver | not_a_style_name].
Qed.

Lemma svg_geometry_attributes_witness :
  is_Some (example.one_circle !! 1)
  ∧ attribute
      (store_after (svg.circle 1 (example.n 50) (example.n 40) (example.n 20) None)
         example.one_circle) 1 "r" = Some "20".
Proof.
  assert (is_Some (example.one_circle !! 1)) as He by (eexists; reflexivity).
  split; [exact He|].
  exact (proj2 (proj2 (proj1 (svg_geometry_attributes 1 None example.one_circle
                                (example.n 50) (example.n 40) (example.n 20)
                                (example.n 0) He)))).
Defined.

(** X2: a vector shape operation writes the attributes of its geometry and,
    when a style object is passed, the five style attributes, and no other:
    every other attribute of the element, and every attribute of any other
    element, is as before.  In particular a call without a style object
    leaves the style attributes as they were. *)
Theorem svg_call_writes_only_its_names `{ColorUtil} (op : svg.Shape) (element : nat)
    (style : option Style) (doc : Document) (other : nat) (name : string) :
  name ∉ written_names op style ∨ other ≠ element →
  attribute (store_after (svg.call op element style) doc) other name
  = attribute doc other name.
Proof.
  intros Hcase.
  destruct (svg_call_writes op element style) as (l & Hnames & Hcall).
  unfold store_after. rewrite Hcall. cbn [fst].
  destruct (decide (other = element)) as [->|Hne].
  - destruct Hcase as [Hname|]; [|done].
    rewrite attribute_alter. unfold attribute.
    destruct (doc !! element) as [e|]; [|done]. simpl.
    apply write_all_other. by rewrite Hnames.
  - unfold attribute. by rewrite lookup_alter_ne.
Qed.

Lemma svg_call_writes_only_its_names_witness :
  ("r" ∉ written_names (svg.Line (example.n 0) (example.n 0) (example.n 5) (example.n 5))
           (Some example.blue)
   ∨ 1 ≠ 1)
  ∧ attribute
      (store_after
         (svg.call (svg.Line (example.n 0) (example.n 0) (example.n 5) (example.n 5))
            1 (Some example.blue))
         example.one_circle) 1 "r" = Some "10".
Proof.
  assert ("r" ∉ written_names
                  (svg.Line (example.n 0) (example.n 0) (example.n 5) (example.n 5))
                  (Some example.blue)
          ∨ 1 ≠ 1) as Hname.
  { left. cbv [written_names geometry_names style_names app].
    repeat (apply not_elem_of_cons; split; [done|]). apply not_elem_of_nil. }
  split; [exact Hname|].
  exact (svg_call_writes_only_its_names _ 1 (Some example.blue) example.one_circle
           1 "r" Hname).
Defined.

(** X3: with a style object, every vector shape operation writes the stroke
    width, line join and line cap, whether or not there is a line colour:
    the values of the style, and [1], [round] and [butt] for those the style
    does not have. *)
Theorem svg_stroke_attributes_defaults `{ColorUtil} (op : svg.Shape) (element : nat)
    (st : Style) (doc : Document) :
  is_Some (doc !! element) →
  let doc' := store_after (svg.call op element (Some st)) doc in
  attribute doc' element "stroke-width"
  = Some (num_to_string (from_option id (num_of_Z 1) (lineWidth st)))
  ∧ attribute doc' element "stroke-linejoin" = Some (from_option id "round" (lineJoin st))
  ∧ attribute doc' element "stroke-linecap" = Some (from_option id "butt" (lineCap st)).
Proof.
  intros [e He] doc'. subst doc'.
  destruct (svg_call_draw op element (Some st)) as (g & _ & _ & Hcall & _).
  unfold store_after. rewrite Hcall.
  apply (svg_draw_attributes element st
           (alter (dom.set_attributes (write_all g)) element doc)).
  rewrite lookup_alter_eq, He. by eexists.
Qed.

Lemma svg_stroke_attributes_defaults_witness :
  is_Some (example.one_circle !! 1)
  ∧ attribute
      (store_after
         (svg.call (svg.Rect (example.n 0) (example.n 0) (example.n 5) (example.n 5))
            1 (Some example.blue))
         example.one_circle) 1 "stroke-width" = Some "1".
Proof.
  assert (is_Some (example.one_circle !! 1)) as He by (eexists; reflexivity).
  split; [exact He|].
  exact (proj1 (svg_stroke_attributes_defaults
                  (svg.Rect (example.n 0) (example.n 0) (example.n 5) (example.n 5))
                  1 example.blue example.one_circle He)).
Defined.

(** X4: with a style object, a vector shape operation writes [none] as fill
    when the style has no fill colour, also when it has a fill opacity; and
    when it has a fill colour and no fill opacity, the colour resolved
    without opacity.  The same holds for the stroke, with the line colour and
    the line opacity. *)
Theorem svg_colour_without_opacity `{ColorUtil} (op : svg.Shape) (element : nat)
    (st : Style) (doc : Document) :
  is_Some (doc !! element) →
  let doc' := store_after (svg.call op element (Some st)) doc in
  (fillColor st = None → attribute doc' element "fill" = Some "none")
  ∧ (∀ c, fillColor st = Some c → fillOpacity st = None →
          attribute doc' element "fill" = Some (toRGBA c None))
  ∧ (lineColor st = None → attribute doc' element "stroke" = Some "none")
  ∧ (∀ c, lineColor st = Some c → lineOpacity st = None →
          attribute doc' element "stroke" = Some (toRGBA c None)).
Proof.
  intros [e He] doc'. subst doc'.
  destruct (svg_call_draw op element (Some st)) as (g & _ & _ & Hcall & _).
  unfold store_after. rewrite Hcall.
  destruct (svg_draw_attributes element st
              (alter (dom.set_attributes (write_all g)) element doc))
    as (Hfill & Hstroke & _).
  { rewrite lookup_alter_eq, He. by eexists. }
  unfold store_after in Hfill, Hstroke. rewrite Hfill, Hstroke.
  split; [|split; [|split]].
  - intros ->. by rewrite bool_decide_eq_false_2 by (intros Hn; by apply Hn).
  - intros c -> ->. by destruct (bool_decide (toRGBA c None ≠ "none")).
  - intros ->. by rewrite bool_decide_eq_false_2 by (intros Hn; by apply Hn).
  - intros c -> ->. by destruct (bool_decide (toRGBA c None ≠ "none")).
Qed.

Lemma svg_colour_without_opacity_witness :
  is_Some (example.one_circle !! 1)
  ∧ lineColor example.blue = None
  ∧ attribute
      (store_after
         (svg.call (svg.Rect (example.n 0) (example.n 0) (example.n 5) (example.n 5))
            1 (Some example.blue))
         example.one_circle) 1 "stroke" = Some "none".
Proof.
  assert (is_Some (example.one_circle !! 1)) as He by (eexists; reflexivity).
  split; [exact He|]. split; [reflexivity|].
  exact (proj1 (proj2 (proj2 (svg_colour_without_opacity
                  (svg.Rect (example.n 0) (example.n 0) (example.n 5) (example.n 5))
                  1 example.blue example.one_circle He))) eq_refl).
Defined.

(** X5: drawing again on an element replaces what the first call wrote: when
    the second call writes every attribute the first one wrote (the same
    operation with a style object, say), the document is the one the second
    call alone gives; so repeating a call changes nothing. *)
Theorem svg_redraw_replaces `{ColorUtil} (op1 op2 : svg.Shape) (element : nat)
    (style1 style2 : option Style) (doc : Document) :
  written_names op1 style1 ⊆ written_names op2 style2 →
  store_after (svg.call op2 element style2)
    (store_after (svg.call op1 element style1) doc)
  = store_after (svg.call op2 element style2) doc.
Proof.
  intros Hsub.
  destruct (svg_call_writes op1 element style1) as (l1 & Hnames1 & Hcall1).
  destruct (svg_call_writes op2 element style2) as (l2 & Hnames2 & Hcall2).
  unfold store_after. rewrite Hcall1, !Hcall2. cbn [fst].
  rewrite alter_attributes_twice. apply alter_ext. intros e _.
  unfold dom.set_attributes. f_equal. simpl.
  apply write_all_overwrite. by rewrite Hnames1, Hnames2.
Qed.

Lemma svg_redraw_replaces_witness :
  written_names (svg.Circle (example.n 50) (example.n 50) (example.n 10)) None
    ⊆ written_names (svg.Circle (example.n 5) (example.n 5) (example.n 20))
        (Some example.blue)
  ∧ store_after
      (svg.call (svg.Circle (example.n 5) (example.n 5) (example.n 20)) 1
         (Some example.blue))
      (store_after
         (svg.call (svg.Circle (example.n 50) (example.n 50) (example.n 10)) 1 None)
         example.one_circle)
    = store_after
        (svg.call (svg.Circle (example.n 5) (example.n 5) (example.n 20)) 1
           (Some example.blue))
        example.one_circle.
Proof.
  assert (written_names (svg.Circle (example.n 50) (example.n 50) (example.n 10)) None
            ⊆ written_names (svg.Circle (example.n 5) (example.n 5) (example.n 20))
                (Some example.blue)) as Hsub.
  { simpl. set_solver. }
  split; [exact Hsub|].
  exact (svg_redraw_replaces _ _ 1 None (Some example.blue) example.one_circle Hsub).
Defined.

(** ** Creating, filling and removing nodes *)



Section removing.

Lemma set_parentNode_twice (p : option nat) (o : option Element) :
  dom.set_parentNode p <$> (dom.set_parentNode p <$> o) = dom.set_parentNode p <$> o.
Proof. by destruct o. Qed.

(** The loop of [empty], node by node: the element loses its children, each
    child loses its parent, the other nodes are as before. *)
Lemma empty_loop_lookup (l : list nat) (element : nat) (e : Element) (doc : Document) :
  doc !! element = Some e → childNodes e = l → element ∉ l →
  dom.empty_loop (length l) element doc !! element
  = Some (mkElement (tagName e) (attributes e) [] (parentNode e))
  ∧ ∀ i, i ≠ element →
      dom.empty_loop (length l) element doc !! i
      = if decide (i ∈ l) then dom.set_parentNode None <$> doc !! i else doc !! i.
Proof.
  revert e doc. induction l as [|c l IH]; intros e doc He Hl Hnot.
  - simpl. split; [|intros i _; by destruct (decide (i ∈ []))].
    rewrite He. f_equal. destruct e; simpl in *; by subst.
  - apply not_elem_of_cons in Hnot as [Hne Hnot].
    cbn [length dom.empty_loop]. unfold dom.firstChild. rewrite He. simpl.
    rewrite Hl. simpl.
    set (doc1 := (alter (dom.set_parentNode None) c
                    (alter (dom.set_childNodes (dom.remove_first c)) element doc))).
    assert (doc1 !! element
            = Some (mkElement (tagName e) (attributes e) l (parentNode e))) as He1.
    { unfold doc1. rewrite lookup_alter_ne, lookup_alter_eq, He by done. simpl.
      unfold dom.set_childNodes. rewrite Hl. simpl. by rewrite decide_True. }
    destruct (IH _ doc1 He1 eq_refl Hnot) as [IHe IHo]. simpl in IHe.
    split; [exact IHe|]. intros i Hi. rewrite IHo by done. unfold doc1.
    destruct (decide (i = c)) as [->|Hic].
    + rewrite lookup_alter_eq, lookup_alter_ne by done.
      rewrite (decide_True (P := c ∈ c :: l)) by set_solver.
      destruct (decide (c ∈ l)); [apply set_parentNode_twice | done].
    + rewrite !lookup_alter_ne by done.
      destruct (decide (i ∈ l)), (decide (i ∈ c :: l)); set_solver.
Qed.

End removing.

(** X7: [empty] on an element that is not its own child removes every child:
    the element keeps its tag, attributes and parent and has no children
    left; each former child stays in the document with no parent; every
    other node is untouched; the call never throws; and emptying again changes
    nothing. *)
Theorem empty_detaches_every_child (element : nat) (e : Element) (doc : Document) :
  doc !! element = Some e → element ∉ childNodes e →
  let doc' := store_after (svg.empty element) doc in
  completion_of (svg.empty element) doc = Normal tt
  ∧ doc' !! element = Some (mkElement (tagName e) (attributes e) [] (parentNode e))
  ∧ (∀ c, c ∈ childNodes e → doc' !! c = dom.set_parentNode None <$> doc !! c)
  ∧ (∀ i, i ≠ element → i ∉ childNodes e → doc' !! i = doc !! i)
  ∧ store_after (svg.empty element) doc' = doc'.
Proof.
  intros He Hnot doc'.
  destruct (empty_loop_lookup (childNodes e) element e doc He eq_refl Hnot) as [Hel Hoth].
  assert (doc' = dom.empty_loop (length (childNodes e)) element doc) as Hdoc'.
  { unfold doc', store_after, svg.empty, dom.empty, modify. cbn [fst]. by rewrite He. }
  split; [done|]. rewrite Hdoc'. split; [exact Hel|]. split; [|split].
  - intros c Hc. rewrite Hoth by (intros ->; done). by rewrite decide_True.
  - intros i Hi Hic. rewrite Hoth by done. by rewrite decide_False.
  - unfold store_after, svg.empty, dom.empty, modify. cbn [fst]. by rewrite Hel.
Qed.

Lemma empty_detaches_every_child_witness :
  example.one_circle !! 0 = Some (mkElement "svg" ∅ [1] None)
  ∧ (0 ∉ [1])
  ∧ store_after (svg.empty 0) example.one_circle !! 1
    = dom.set_parentNode None <$> example.one_circle !! 1.
Proof.
  assert (example.one_circle !! 0 = Some (mkElement "svg" ∅ [1] None)) as He
    by reflexivity.
  assert (0 ∉ childNodes (mkElement "svg" ∅ [1] None)) as Hnot.
  { simpl. apply not_elem_of_cons. split; [done | apply not_elem_of_nil]. }
  split; [exact He|]. split; [exact Hnot|].
  refine (proj1 (proj2 (proj2 (empty_detaches_every_child 0 _ example.one_circle
                                 He Hnot))) 1 _).
  simpl. apply list_elem_of_here.
Defined.





(** ** Module [dom]: attributes and visibility *)

Section dom_attributes.
Context `{Number}.

Lemma removeAttr_run (element : nat) (names : list string) (doc : Document) :
  dom.removeAttr element names doc
  = (alter (dom.set_attributes (delete_all names)) element doc, Normal tt).
Proof.
  unfold dom.removeAttr. revert doc. induction names as [|name names IH]; intros doc.
  - simpl. unfold ret. f_equal. symmetry. apply alter_id. intros e _.
    apply set_attributes_id.
  - simpl. unfold bind, modify. rewrite IH, alter_attributes_twice. done.
Qed.

Lemma delete_all_lookup (names : list string) (name : string) (m : gmap string string) :
  delete_all names m !! name = if decide (name ∈ names) then None else m !! name.
Proof.
  revert m. induction names as [|x names IH]; intros m; simpl.
  - destruct (decide (name ∈ [])) as [Hin|]; [by apply elem_of_nil in Hin | done].
  - change (delete_all names (delete x m) !! name
            = if decide (name ∈ x :: names) then None else m !! name).
    rewrite IH.
    destruct (decide (name ∈ names)) as [Hin|Hin],
      (decide (name ∈ x :: names)) as [Hin'|Hin']; try done.
    + exfalso. apply Hin'. by apply elem_of_cons; right.
    + apply elem_of_cons in Hin' as [->|Hin']; [apply lookup_delete_eq | done].
    + apply lookup_delete_ne. intros ->. apply Hin', list_elem_of_here.
Qed.

End dom_attributes.

(** X10: [removeAttr] never throws; after it the element has none of the
    attributes named (whether it had them or not), every other attribute of
    the element and every attribute of any other element is as before, and
    no child list changes. *)
Theorem removeAttr_removes_only_named (element : nat) (names : list string)
    (doc : Document) (other : nat) (name : string) :
  completion_of (dom.removeAttr element names) doc = Normal tt
  ∧ (name ∈ names →
     attribute (store_after (dom.removeAttr element names) doc) element name = None)
  ∧ (name ∉ names ∨ other ≠ element →
     attribute (store_after (dom.removeAttr element names) doc) other name
     = attribute doc other name)
  ∧ children (store_after (dom.removeAttr element names) doc) other = children doc other.
Proof.
  unfold store_after, completion_of. rewrite removeAttr_run. cbn [fst snd].
  split; [done|]. split; [|split].
  - intros Hin. rewrite attribute_alter.
    destruct (doc !! element) as [e|]; [|done]. simpl.
    by rewrite delete_all_lookup, decide_True.
  - intros Hcase. destruct (decide (other = element)) as [->|Hne].
    + destruct Hcase as [Hname|]; [|done]. rewrite attribute_alter. unfold attribute.
      destruct (doc !! element) as [e|]; [|done]. simpl.
      by rewrite delete_all_lookup, decide_False.
    + unfold attribute. by rewrite lookup_alter_ne.
  - apply children_alter_attributes.
Qed.



(** X12: an element is visible unless its inline visibility is [hidden]:
    it is not visible after [hide], visible after [show], also after [hide]
    then [show], and visible when its visibility was never set; [hide] on one
    element changes neither the visibility of another nor another inline
    style property of the element. *)
Theorem hide_show_visibility (styles : gmap nat (gmap string string))
    (element other : nat) (property : string) :
  dom.isVisible (store_after (dom.hide element) styles) element = false
  ∧ dom.isVisible (store_after (dom.show element) styles) element = true
  ∧ dom.isVisible
      (store_after (dom.show element) (store_after (dom.hide element) styles))
      element = true
  ∧ dom.isVisible ∅ element = true
  ∧ (other ≠ element →
     dom.isVisible (store_after (dom.hide element) styles) other
     = dom.isVisible styles other)
  ∧ (property ≠ "visibility" →
     dom.style_property (store_after (dom.hide element) styles) element property
     = dom.style_property styles element property).
Proof.
  unfold dom.isVisible, dom.style_property, store_after, dom.hide, dom.show, modify,
    dom.set_style_property. cbn [fst].
  split; [|split; [|split; [|split; [|split]]]].
  - by rewrite lookup_insert_eq; simpl; rewrite lookup_insert_eq.
  - by rewrite lookup_insert_eq; simpl; rewrite lookup_insert_eq.
  - by rewrite !lookup_insert_eq; simpl; rewrite lookup_insert_eq.
  - done.
  - intros Hne. by rewrite lookup_insert_ne.
  - intros Hne. rewrite lookup_insert_eq. simpl. rewrite lookup_insert_ne by done.
    by destruct (styles !! element).
Qed.

(** ** Module [canvas]: paths and paint *)

(** X13: the raster [polyline] on the coordinates of a list of points, with a
    style object, begins a path, moves to the first point, draws a line to
    each of the others in order, and then paints; with no point at all it
    begins a path and paints it as it is.  It completes normally. *)
Theorem canvas_polyline_path `{ColorUtil} (x y : num) (rest : list (num * num))
    (st : Style) (ctx : canvas.Context2D) :
  canvas.call (canvas.Polyline (coords_of ((x, y) :: rest))) (Some st) ctx
  = (ctx ++ canvas.beginPath
         :: canvas.moveTo (number x) (number y)
         :: map (fun p => canvas.lineTo (number p.1) (number p.2)) rest
         ++ paint (Some st),
     Normal tt)
  ∧ canvas.call (canvas.Polyline []) (Some st) ctx
    = (ctx ++ canvas.beginPath :: paint (Some st), Normal tt).
Proof.
  rewrite !canvas_call_run, canvas_draw_normal by done. split; [|done].
  f_equal. f_equal. unfold path_of. rewrite chunks_coords_of. simpl.
  by rewrite map_map.
Qed.

Section canvas_paint.
Context `{ColorUtil}.

Lemma stroke_wanted_spec (st : Style) :
  stroke_wanted st = true
  ↔ is_Some (lineColor st) ∧ ∀ w, lineWidth st = Some w → num_is_zero w = false.
Proof.
  unfold stroke_wanted. rewrite andb_true_iff, bool_decide_eq_true.
  destruct (lineWidth st) as [w|]; simpl.
  - rewrite negb_true_iff. split; intros [Hc Hw]; (split; [done|]).
    + by intros ? [= <-].
    + by apply Hw.
  - split; intros [Hc _]; done.
Qed.

Lemma fill_in_paint (st : Style) :
  canvas.fill ∈ paint (Some st) ↔ is_Some (fillColor st).
Proof.
  destruct (fillColor st) as [c|] eqn:Hc.
  - destruct (paint_fill st c Hc) as (rest & -> & _). split; [by eexists | set_solver].
  - split; [by intros ?%paint_no_fill | by intros [? ?]].
Qed.

End canvas_paint.

(** X14: on the five raster operations that reach [draw], when the style has
    a fill colour and a line colour and its line width is not [0], the call
    issues its path and then exactly these commands, fill before stroke: the
    fill style (the colour resolved with the fill opacity, if any), the fill,
    the line width, join and cap (or [1], [round], [butt]), the stroke style
    (the colour resolved with the line opacity, if any) and the stroke. *)
Theorem canvas_fill_then_stroke `{ColorUtil} (op : canvas.Shape) (st : Style)
    (fc lc : string) (ctx : canvas.Context2D) :
  (∀ a, op ≠ canvas.Polygon a) →
  fillColor st = Some fc → lineColor st = Some lc →
  (∀ w, lineWidth st = Some w → num_is_zero w = false) →
  issued (canvas.call op (Some st)) ctx
  = path_of op ++
    [canvas.set_fillStyle (toRGBA fc (fillOpacity st));
     canvas.fill;
     canvas.set_lineWidth (from_option id (num_of_Z 1) (lineWidth st));
     canvas.set_lineJoin (from_option id "round" (lineJoin st));
     canvas.set_lineCap (from_option id "butt" (lineCap st));
     canvas.set_strokeStyle (toRGBA lc (lineOpacity st));
     canvas.stroke].
Proof.
  intros Hop Hfc Hlc Hw. rewrite issued_call by done. f_equal.
  destruct st as [f fo l lw lj lcap lo]. simpl in *. subst f l.
  canvas_run. simpl.
  assert (from_option (fun w => negb (num_is_zero w)) true lw = true) as ->.
  { destruct lw as [w|]; [|done]. simpl. by rewrite Hw. }
  by destruct fo, lo.
Qed.

Lemma canvas_fill_then_stroke_witness :
  (∀ a, canvas.Rect (example.n 0) (example.n 0) (example.n 4) (example.n 3)
        ≠ canvas.Polygon a)
  ∧ fillColor example.translucent = Some "rgba(255,0,0,1)"
  ∧ lineColor example.translucent = Some "black"
  ∧ (∀ w, lineWidth example.translucent = Some w → num_is_zero w = false)
  ∧ issued (canvas.call (canvas.Rect (example.n 0) (example.n 0) (example.n 4)
                           (example.n 3)) (Some example.translucent)) []
    = [canvas.beginPath;
       canvas.rect_ (example.n 0) (example.n 0) (example.n 4) (example.n 3);
       canvas.set_fillStyle "rgba(255,0,0,0.5)";
       canvas.fill;
       canvas.set_lineWidth (example.n 2);
       canvas.set_lineJoin "round";
       canvas.set_lineCap "butt";
       canvas.set_strokeStyle "rgba(0,0,0,0.25)";
       canvas.stroke].
Proof.
  assert (∀ a, canvas.Rect (example.n 0) (example.n 0) (example.n 4) (example.n 3)
               ≠ canvas.Polygon a) as Hop by (intros a; discriminate).
  assert (∀ w, lineWidth example.translucent = Some w → num_is_zero w = false) as Hw
    by (intros w [= <-]; reflexivity).
  split; [exact Hop|]. split; [reflexivity|]. split; [reflexivity|].
  split; [exact Hw|].
  exact (canvas_fill_then_stroke _ example.translucent _ _ [] Hop eq_refl eq_refl Hw).
Defined.

(** X15: on the five raster operations that reach [draw], called with a style
    object: the call completes normally; a fill is issued exactly when the
    style has a fill colour; a stroke is issued exactly when it has a line
    colour and its line width is not [0] (an absent width counts as [1]); and
    with neither colour nothing is painted: the call issues its path and no
    more, whatever else the style holds. *)
Theorem canvas_paint_rule `{ColorUtil} (op : canvas.Shape) (st : Style)
    (ctx : canvas.Context2D) :
  (∀ a, op ≠ canvas.Polygon a) →
  completion_of (canvas.call op (Some st)) ctx = Normal tt
  ∧ (canvas.fill ∈ issued (canvas.call op (Some st)) ctx ↔ is_Some (fillColor st))
  ∧ (canvas.stroke ∈ issued (canvas.call op (Some st)) ctx
     ↔ is_Some (lineColor st) ∧ ∀ w, lineWidth st = Some w → num_is_zero w = false)
  ∧ (fillColor st = None → lineColor st = None →
     issued (canvas.call op (Some st)) ctx = path_of op).
Proof.
  intros Hop. split; [|split; [|split]].
  - unfold completion_of. rewrite canvas_call_run by done. apply canvas_draw_normal.
  - rewrite issued_call, elem_of_app, <-fill_in_paint by done. split; [|by right].
    intros [Hin|Hin]; [by apply path_of_no_paint in Hin | done].
  - rewrite canvas_stroke_iff by done. apply stroke_wanted_spec.
  - intros Hf Hl. rewrite issued_call by done.
    destruct st as [f fo l lw lj lcap lo]. simpl in *. subst f l.
    canvas_run. simpl. by rewrite app_nil_r.
Qed.

Lemma canvas_paint_rule_witness :
  (∀ a, canvas.Circle (example.n 5) (example.n 5) (example.n 2) ≠ canvas.Polygon a)
  ∧ issued (canvas.call (canvas.Circle (example.n 5) (example.n 5) (example.n 2))
              (Some example.no_style)) []
    = path_of (canvas.Circle (example.n 5) (example.n 5) (example.n 2)).
Proof.
  assert (∀ a, canvas.Circle (example.n 5) (example.n 5) (example.n 2)
               ≠ canvas.Polygon a) as Hop by (intros a; discriminate).
  split; [exact Hop|].
  exact (proj2 (proj2 (proj2 (canvas_paint_rule _ example.no_style [] Hop)))
           eq_refl eq_refl).
Defined.

(** ** Module [util]: [extendObject] *)

Section extendObject.
Context `{Number}.







End extendObject.







